(** * node-bitcoin-p2p: block checks, memory pool and node state machine

    A shallow embedding of [lib/schema/block.js], [lib/transactionstore.js]
    and the [Node] state machine, with the properties of the chain-and-pool
    engine stated over it.

    JavaScript values are modelled as follows.
    - A [Buffer] is a list of bytes; buffertools' in-place [reverse] and its
      [compare] are written out on lists.
    - A statement that can throw yields a [completion]: [Normal v] or
      [Abrupt e].  Methods that also mutate [this] return the mutated
      object next to the completion.
    - Objects used as dictionaries are [gmap string _]. *)

From Stdlib Require Import ZArith NArith List String Bool Lia.
From Stdlib Require Import Strings.Byte.
From stdpp Require Import gmap strings list fin_maps pretty.

Local Open Scope string_scope.
Local Open Scope list_scope.
Local Open Scope stdpp_scope.

(** ** Exceptions and completions *)

Inductive exn : Type :=
| TypeError (msg : string)      (* raised by the runtime *)
| ThrownString (msg : string)   (* [throw 'text'] *)
| ErrorObject (msg : string)    (* [throw new Error(text)] *)
| MissingSourceError (missingTxHash : string).  (* error.MissingSourceError *)

Inductive completion (A : Type) : Type :=
| Normal (a : A)
| Abrupt (e : exn).
Arguments Normal {A} a.
Arguments Abrupt {A} e.

Definition cbind {A B} (c : completion A) (k : A -> completion B) : completion B :=
  match c with
  | Normal a => k a
  | Abrupt e => Abrupt e
  end.

(** ** Buffers *)

Definition Buffer := list byte.

(** [memcmp] on two runs of bytes of one length: the first differing byte
    decides, bytes being unsigned.  Only the sign of the result matters;
    it is normalised to -1, 0, 1. *)
Fixpoint bytes_compare (a b : Buffer) : Z :=
  match a, b with
  | [], [] => 0
  | [], _ :: _ => -1
  | _ :: _, [] => 1
  | x :: a', y :: b' =>
      match N.compare (Byte.to_N x) (Byte.to_N y) with
      | Lt => -1
      | Gt => 1
      | Eq => bytes_compare a' b'
      end
  end%Z.

(** buffertools [a.compare(b)]: buffers of different lengths are ordered
    by length, the shorter one first; buffers of one length byte by byte. *)
Definition Buffer_compare (a b : Buffer) : Z :=
  if (length a <? length b)%nat then (-1)%Z
  else if (length b <? length a)%nat then 1%Z
  else bytes_compare a b.

(** The unsigned integer a buffer denotes, least significant byte first. *)
Fixpoint le_int (l : Buffer) : N :=
  match l with
  | [] => 0
  | b :: r => Byte.to_N b + 256 * le_int r
  end%N.

(** The unsigned integer a buffer denotes, most significant byte first. *)
Definition be_int (l : Buffer) : N :=
  fold_left (fun acc b => (256 * acc + Byte.to_N b)%N) l 0%N.

(** [be_int] continued from the value [acc] of the bytes already read. *)
Definition be_from (acc : N) (l : Buffer) : N :=
  fold_left (fun a b => (256 * a + Byte.to_N b)%N) l acc.

(** The sign of a comparison, as buffertools reports it. *)
Definition sign_of (c : comparison) : Z :=
  match c with
  | Lt => -1
  | Eq => 0
  | Gt => 1
  end.

(** [n] bytes of [z], most significant first. *)
Fixpoint be_bytes (n : nat) (z : N) : Buffer :=
  match n with
  | O => []
  | S k => be_bytes k (z / 256) ++ [match Byte.of_N (z mod 256) with
                                     | Some b => b
                                     | None => x00
                                     end]
  end.

(** [Util.NULL_HASH]: thirty-two zero bytes. *)
Definition NULL_HASH : Buffer := repeat x00 32.

(** Modelled from the spec: [Util.decodeDiffBits] is not among the sources.
    The spec gives [target = mantissa * 256^(exponent - 3)] as a 256-bit
    quantity, compared with a hash most significant byte first.  This
    instance is used to run the checks on concrete blocks; the theorems
    below hold for any decoder that yields thirty-two bytes. *)
Definition decodeDiffBits_model (bits : Z) : Buffer :=
  let mantissa := Z.land bits 16777215 in
  let exponent := Z.shiftr bits 24 in
  let target := Z.shiftl mantissa (8 * (exponent - 3)) in
  be_bytes 32 (Z.to_N (target mod 2 ^ 256)).

Module BlockSchema.

(** [lib/schema/block.js], the Block schema.  Buffer-typed fields may be
    unset, hence [option].  The field [size] is called [blk_size]. *)
Record Block : Type := mkBlock {
  hash : option Buffer;
  prev_hash : option Buffer;
  merkle_root : option Buffer;
  timestamp : Z;
  bits : Z;
  nonce : Z;
  version : string;
  height : Z;
  blk_size : Z;
  active : bool;
  chainWork : option Buffer
}.

Definition set_hash (B : Block) (h : option Buffer) : Block :=
  {| hash := h; prev_hash := prev_hash B; merkle_root := merkle_root B;
     timestamp := timestamp B; bits := bits B; nonce := nonce B;
     version := version B; height := height B; blk_size := blk_size B;
     active := active B; chainWork := chainWork B |}.

(** [block.merkle_root = m] *)
Definition set_merkle_root (B : Block) (m : option Buffer) : Block :=
  {| hash := hash B; prev_hash := prev_hash B; merkle_root := m;
     timestamp := timestamp B; bits := bits B; nonce := nonce B;
     version := version B; height := height B; blk_size := blk_size B;
     active := active B; chainWork := chainWork B |}.

Section Checks.

(** Collaborators that live outside the schema file. *)
Variable decodeDiffBits : Z -> Buffer.       (* Util.decodeDiffBits(bits) *)
Variable twoSha256 : Buffer -> Buffer.       (* Util.twoSha256 *)
Variable Tx : Type.                         (* the Transaction model *)
Variable getHash : Tx -> Buffer.             (* tx.getHash() *)

(** [Block.method('checkProofOfWork')].  The hash buffer is reversed in
    place, compared, and reversed back only on the path that returns. *)
Definition checkProofOfWork (B : Block) : completion bool * Block :=
  let target := decodeDiffBits (bits B) in
  match hash B with
  | None => (Abrupt (TypeError "Cannot call method 'reverse' of undefined"), B)
  | Some h =>
      let B1 := set_hash B (Some (rev h)) in
      if (0 <? Buffer_compare (rev h) target)%Z
      then (Abrupt (ThrownString "Difficulty target not met"), B1)
      else (Normal true, set_hash B1 (Some (rev (rev h))))
  end.

(** [tree.add(x)]: a JavaScript array has no [add] method, so the call
    raises a TypeError once its argument has been evaluated. *)
Definition array_add (tree : list Buffer) (x : Buffer) : completion (list Buffer) :=
  Abrupt (TypeError "Object has no method 'add'").

(** [Block.method('calcMerkleRoot')].  The argument is [None] when the
    caller passes nothing.  With two or more transactions the loops are
    entered with [size > 1], [j = 0] and [i = 0]; that first pass ends in
    [array_add], which never completes normally, so no later pass (and
    none of the fractional level sizes [(size + 1) / 2]) is reached. *)
Definition calcMerkleRoot (txs : option (list Tx)) : completion Buffer :=
  match txs with
  | None => Abrupt (TypeError "Cannot read property 'length' of undefined")
  | Some txs =>
      if (length txs =? 0)%nat then Normal NULL_HASH
      else
        let tree := map getHash txs in
        let size := length txs in
        cbind
          (if (1 <? size)%nat then
             let i2 := Nat.min 1 (size - 1) in
             let a := nth 0 tree [] in
             let b := nth i2 tree [] in
             array_add tree (twoSha256 (a ++ b))
           else Normal tree)
          (fun tree' => Normal (nth (length tree' - 1) tree' []))
  end.

(** The comparison at the heart of [checkMerkleRoot]:
    [if (computed.compare(this.merkle_root) == 0) throw ...; return true]. *)
Definition merkleRootTest (computed stored : Buffer) : completion bool :=
  if (Buffer_compare computed stored =? 0)%Z
  then Abrupt (ThrownString "Merkle root incorrect")
  else Normal true.

(** [Block.method('checkMerkleRoot')].  Its parameter [txs] is not handed
    on: the source calls [this.calcMerkleRoot()] without arguments. *)
Definition checkMerkleRoot (B : Block) (txs : list Tx) : completion bool :=
  match merkle_root B with
  | None => Abrupt (ThrownString "No merkle root")
  | Some stored =>
      cbind (calcMerkleRoot None) (fun computed => merkleRootTest computed stored)
  end.

(** The canonical merkle root of the spec, stated from its words: hash
    the leaves pairwise with double SHA-256, the last one paired with
    itself when a level has an odd count, until one hash is left. *)
Fixpoint merkle_level (l : list Buffer) : list Buffer :=
  match l with
  | [] => []
  | [a] => [twoSha256 (a ++ a)]
  | a :: b :: r => twoSha256 (a ++ b) :: merkle_level r
  end.

Fixpoint merkle_fold (fuel : nat) (l : list Buffer) : Buffer :=
  match l with
  | [] => NULL_HASH
  | [r] => r
  | _ => match fuel with
         | O => NULL_HASH
         | S f => merkle_fold f (merkle_level l)
         end
  end.

Definition canonical_merkle_root (txs : list Tx) : Buffer :=
  merkle_fold (length txs) (map getHash txs).

End Checks.

Arguments calcMerkleRoot twoSha256 {Tx} getHash txs.
Arguments checkMerkleRoot twoSha256 {Tx} getHash B txs.
Arguments canonical_merkle_root twoSha256 {Tx} getHash txs.

(** *** The other checks and accessors of the schema *)

(** [block.chainWork = b] *)
Definition set_chainWork (B : Block) (w : option Buffer) : Block :=
  {| hash := hash B; prev_hash := prev_hash B; merkle_root := merkle_root B;
     timestamp := timestamp B; bits := bits B; nonce := nonce B;
     version := version B; height := height B; blk_size := blk_size B;
     active := active B; chainWork := w |}.

(** The length in bytes of [n.toBuffer()] of the bigint library: the
    hexadecimal digits of [n], padded to whole bytes; zero takes one byte. *)
Definition bigint_byte_length (n : N) : nat :=
  match n with
  | 0%N => 1
  | _ => S (N.to_nat (N.log2 n / 8))
  end.

(** [n.toBuffer()]: big-endian, no leading zero byte (but for zero). *)
Definition bigint_toBuffer (n : N) : Buffer := be_bytes (bigint_byte_length n) n.

(** What [setChainWork] is handed: a bigint or a Buffer. *)
Inductive ChainWork : Type :=
| WorkBigInt (n : N)
| WorkBuffer (b : Buffer).

(** [Block.method('setChainWork')] *)
Definition setChainWork (B : Block) (w : ChainWork) : Block :=
  set_chainWork B (Some match w with
                        | WorkBigInt n => bigint_toBuffer n
                        | WorkBuffer b => b
                        end).

(** [Block.method('getChainWork')]: [bigint.fromBuffer(this.chainWork)]
    reads the buffer most significant byte first. *)
Definition getChainWork (B : Block) : completion N :=
  match chainWork B with
  | Some b => Normal (be_int b)
  | None => Abrupt (TypeError "Cannot read property 'length' of undefined")
  end.

(** [Block.method('moreWorkThan')] *)
Definition moreWorkThan (B other : Block) : completion bool :=
  cbind (getChainWork B) (fun mine =>
  cbind (getChainWork other) (fun theirs =>
  Normal (0 <? sign_of (N.compare mine theirs))%Z)).

(** [BlockRules.largestHash] *)
Definition largestHash : N := (2 ^ 256)%N.

(** [Block.method('getWork')]; [decodeDiffBitsBig] is
    [Util.decodeDiffBits(bits, true)], the target as a bigint. *)
Definition getWork (decodeDiffBitsBig : Z -> N) (B : Block) : N :=
  (largestHash / (decodeDiffBitsBig (bits B) + 1))%N.

(** [Block.static('getBlockValue')]; [COIN] is [Util.COIN], [height] a
    non-negative integer.  bigint division rounds down. *)
Definition getBlockValue (COIN : Z) (height : Z) : Z :=
  (50 * COIN / 2 ^ (height / 210000))%Z.

(** [Block.method('checkTimestamp')].  [nowMs] is [new Date().getTime()],
    in milliseconds; the source compares [timestamp] with
    [nowMs / 1000 + maxTimeOffset], here with both sides in milliseconds. *)
Definition checkTimestamp (nowMs : Z) (B : Block) : completion bool :=
  if (nowMs + 2 * 60 * 60 * 1000 <? timestamp B * 1000)%Z
  then Abrupt (ThrownString "Timestamp too far into the future")
  else Normal true.

Section Validation.

Variable decodeDiffBits : Z -> Buffer.
Variable twoSha256 : Buffer -> Buffer.
Variable Tx : Type.
Variable getHash : Tx -> Buffer.
Variable isCoinBase : Tx -> bool.            (* tx.isCoinBase() *)

(** The loop of [checkTransactions] from index [i] on. *)
Fixpoint checkNoCoinBase (i : nat) (rest : list Tx) : completion bool :=
  match rest with
  | [] => Normal true
  | t :: r =>
      if isCoinBase t
      then Abrupt (ThrownString ("Tx index " +:+ pretty i +:+ " must not be coinbase"))
      else checkNoCoinBase (S i) r
  end.

(** [Block.method('checkTransactions')]; [None] is an argument that is
    not an array. *)
Definition checkTransactions (txs : option (list Tx)) : completion bool :=
  match txs with
  | None | Some [] => Abrupt (ThrownString "No transactions")
  | Some (t0 :: rest) =>
      if negb (isCoinBase t0) then Abrupt (ThrownString "First tx must be coinbase")
      else checkNoCoinBase 1 rest
  end.

(** [Block.method('checkBlock')]; [txs] is an array or is left out
    ([None]).  An exception ends the call with the block as the checks
    so far have left it. *)
Definition checkBlock (nowMs : Z) (B : Block) (txs : option (list Tx))
  : completion bool * Block :=
  match checkProofOfWork decodeDiffBits B with
  | (Abrupt e, B1) => (Abrupt e, B1)
  | (Normal _, B1) =>
      (cbind (checkTimestamp nowMs B1) (fun _ =>
       match txs with
       | Some l =>
           cbind (checkTransactions (Some l)) (fun _ =>
           cbind (checkMerkleRoot twoSha256 getHash B1 l) (fun ok =>
           if negb ok then Abrupt (ThrownString "Merkle hash invalid")
           else Normal true))
       | None => Normal true
       end), B1)
  end.

End Validation.

Arguments checkNoCoinBase {Tx} isCoinBase i rest.
Arguments checkTransactions {Tx} isCoinBase txs.
Arguments checkBlock decodeDiffBits twoSha256 {Tx} getHash isCoinBase nowMs B txs.

End BlockSchema.

Module TransactionStore.

(** [lib/transactionstore.js].  A transaction is seen through the methods
    the store calls on it; [hash] is [tx.getHash().toString('base64')], the
    key under which the store files it.  [first_seen] is the property the
    store stamps on the object.  A record is the state of one object: two
    objects built from the same wire message have the same [hash], and the
    one that went through [add] first carries the stamp. *)
Record Transaction : Type := mkTx {
  hash : string;
  isCoinBase : bool;
  isStandard : bool;
  ins : list (string * Z);               (* outpoints: source hash and index *)
  getAffectedAccounts : list string;     (* own keys of the returned object *)
  first_seen : option nat
}.

Definition stamp (now : nat) (tx : Transaction) : Transaction :=
  {| hash := hash tx; isCoinBase := isCoinBase tx; isStandard := isStandard tx;
     ins := ins tx; getAffectedAccounts := getAffectedAccounts tx;
     first_seen := Some now |}.

(** The values that reach a [callback] parameter.  [UserFn] is a function
    supplied by a caller: it is opaque, and each call of it is recorded.
    [RemoveLater] is the closure that [remove] queues.  [Num] is the index
    that [Array.prototype.forEach] passes as second argument. *)
Inductive Callback : Type :=
| UserFn (id : nat)
| RemoveLater (h : string)
| Undefined
| Num (n : nat).

Definition is_function (cb : Callback) : bool :=
  match cb with
  | UserFn _ | RemoveLater _ => true
  | Undefined | Num _ => false
  end.

(** A value of [txIndex]: the array of waiting callbacks while the
    transaction is being verified, the transaction once it is. *)
Inductive Entry : Type :=
| Queue (callbackQueue : list Callback)
| Verified (tx : Transaction).

Inductive Event : Type :=
| TxNotify (tx : Transaction)
| TxNotifyAcc (acc : string) (tx : Transaction)
| TxCancel (tx : Transaction) (txHash : string)
| TxCancelAcc (acc : string) (tx : Transaction) (txHash : string).

Record Call : Type := mkCall {
  call_fn : nat;
  call_err : option exn;
  call_tx : option Transaction
}.

Record Store : Type := mkStore {
  liveAccounting : bool;                         (* node.cfg.feature.liveAccounting *)
  txIndex : gmap string Entry;
  txIndexByAcc : gmap string (list string);
  orphanTxIndex : gmap string Transaction;
  orphanTxByPrev : gmap string (list Transaction);
  verifying : list Transaction;   (* [tx.verify] calls that have not reported yet *)
  emitted : list Event;           (* events emitted, oldest first *)
  calls : list Call               (* calls of caller-supplied functions, oldest first *)
}.

(** [new TransactionStore(node)] *)
Definition new (la : bool) : Store :=
  mkStore la ∅ ∅ ∅ ∅ [] [] [].

Definition with_txIndex (m : gmap string Entry) (st : Store) : Store :=
  mkStore (liveAccounting st) m (txIndexByAcc st) (orphanTxIndex st)
          (orphanTxByPrev st) (verifying st) (emitted st) (calls st).
Definition with_txIndexByAcc (m : gmap string (list string)) (st : Store) : Store :=
  mkStore (liveAccounting st) (txIndex st) m (orphanTxIndex st)
          (orphanTxByPrev st) (verifying st) (emitted st) (calls st).
Definition with_orphanTxIndex (m : gmap string Transaction) (st : Store) : Store :=
  mkStore (liveAccounting st) (txIndex st) (txIndexByAcc st) m
          (orphanTxByPrev st) (verifying st) (emitted st) (calls st).
Definition with_orphanTxByPrev (m : gmap string (list Transaction)) (st : Store) : Store :=
  mkStore (liveAccounting st) (txIndex st) (txIndexByAcc st) (orphanTxIndex st)
          m (verifying st) (emitted st) (calls st).
Definition with_verifying (l : list Transaction) (st : Store) : Store :=
  mkStore (liveAccounting st) (txIndex st) (txIndexByAcc st) (orphanTxIndex st)
          (orphanTxByPrev st) l (emitted st) (calls st).
Definition with_emitted (l : list Event) (st : Store) : Store :=
  mkStore (liveAccounting st) (txIndex st) (txIndexByAcc st) (orphanTxIndex st)
          (orphanTxByPrev st) (verifying st) l (calls st).
Definition with_calls (l : list Call) (st : Store) : Store :=
  mkStore (liveAccounting st) (txIndex st) (txIndexByAcc st) (orphanTxIndex st)
          (orphanTxByPrev st) (verifying st) (emitted st) l.

(** *** Store computations: the store is threaded, an exception cuts the
    rest of the computation short and leaves the mutations made so far. *)
Definition M (A : Type) : Type := Store -> Store * completion A.

Definition ret {A} (a : A) : M A := fun st => (st, Normal a).
Definition throw {A} (e : exn) : M A := fun st => (st, Abrupt e).
Definition bind {A B} (m : M A) (k : A -> M B) : M B :=
  fun st => match m st with
            | (st1, Normal a) => k a st1
            | (st1, Abrupt e) => (st1, Abrupt e)
            end.
Definition gets {A} (f : Store -> A) : M A := fun st => (st, Normal (f st)).
Definition modify (f : Store -> Store) : M unit := fun st => (f st, Normal tt).
Definition try_catch {A} (m : M A) (handler : exn -> M A) : M A :=
  fun st => match m st with
            | (st1, Normal a) => (st1, Normal a)
            | (st1, Abrupt e) => handler e st1
            end.

Notation "'do' x <- m ;; k" := (bind m (fun x => k))
  (at level 10, x name, m at level 99, k at level 200).
Notation "m ;;; k" := (bind m (fun _ => k))
  (at level 200, k at level 200).

(** [xs.forEach(f)] *)
Fixpoint forEach {A} (f : A -> nat -> M unit) (i : nat) (xs : list A) : M unit :=
  match xs with
  | [] => ret tt
  | x :: r => f x i ;;; forEach f (S i) r
  end.

(** [this.emit(name, eventData)]; listeners are outside the store. *)
Definition emit (ev : Event) : M unit :=
  modify (fun st => with_emitted (emitted st ++ [ev]) st).

(** [TransactionStore.prototype.remove] *)
Definition remove (h : string) : M unit :=
  do idx <- gets txIndex ;;
  match idx !! h with
  | Some (Queue q) =>
      modify (with_txIndex (<[h := Queue (q ++ [RemoveLater h])]> idx))
  | Some (Verified tx) =>
      modify (with_txIndex (delete h idx)) ;;;
      emit (TxCancel tx h) ;;;
      do la <- gets liveAccounting ;;
      if la then forEach (fun i _ => emit (TxCancelAcc i tx h)) 0 (getAffectedAccounts tx)
      else ret tt
  | None => ret tt
  end.

(** Calling a callback value with [(err, tx)]. *)
Definition invoke (cb : Callback) (err : option exn) (tx : option Transaction) : M unit :=
  match cb with
  | UserFn id => modify (fun st => with_calls (calls st ++ [mkCall id err tx]) st)
  | RemoveLater h =>
      match err with
      | Some _ => ret tt
      | None => remove h
      end
  | Undefined | Num _ => throw (TypeError "callback is not a function")
  end.

(** [tx.verify(this, cb)]: verification runs elsewhere and reports later,
    once, through [verifyCallback]; the call itself returns normally. *)
Definition verify (tx : Transaction) : M unit :=
  modify (fun st => with_verifying (verifying st ++ [tx]) st).

(** [TransactionStore.prototype.add] *)
Definition add (now : nat) (tx : Transaction) (callback : Callback) : M bool :=
  let txHash := hash tx in
  do idx <- gets txIndex ;;
  match idx !! txHash with
  | Some (Queue q) =>
      (if is_function callback
       then modify (with_txIndex (<[txHash := Queue (q ++ [callback])]> idx))
       else ret tt) ;;;
      ret false
  | Some (Verified _) =>
      (if is_function callback then invoke callback None (Some tx) else ret tt) ;;;
      ret false
  | None =>
      let tx := stamp now tx in
      try_catch
        ((if isCoinBase tx
          then throw (ErrorObject "Coinbase transactions are only allowed as part of a block")
          else ret tt) ;;;
         (if negb (isStandard tx)
          then throw (ErrorObject "Non-standard transactions are currently not accepted")
          else ret tt) ;;;
         verify tx ;;;
         modify (fun st => with_txIndex (<[txHash := Queue [callback]]> (txIndex st)) st))
        (fun e => invoke callback (Some e) None) ;;;
      ret true
  end.

(** The function that [add] hands to [tx.verify]; [tx] is the stamped
    object captured by the closure. *)
Definition verifyCallback (now : nat) (tx : Transaction) (err : option exn) : M unit :=
  let txHash := hash tx in
  do idx <- gets txIndex ;;
  match idx !! txHash with
  | Some (Queue callbackQueue) =>
      match err with
      | Some e =>
          match e with
          | MissingSourceError missing =>
              modify (fun st => with_orphanTxIndex (<[txHash := tx]> (orphanTxIndex st)) st) ;;;
              modify (fun st =>
                        with_orphanTxByPrev
                          (<[missing := match orphanTxByPrev st !! missing with
                                        | None => [tx]
                                        | Some l => l ++ [tx]
                                        end]> (orphanTxByPrev st)) st)
          | _ => modify (fun st => with_txIndex (delete txHash (txIndex st)) st)
          end ;;;
          forEach (fun cb _ => invoke cb (Some e) (Some tx)) 0 callbackQueue
      | None =>
          modify (fun st => with_txIndex (<[txHash := Verified tx]> (txIndex st)) st) ;;;
          forEach (fun cb _ => invoke cb None (Some tx)) 0 callbackQueue ;;;
          do byPrev <- gets orphanTxByPrev ;;
          match byPrev !! txHash with
          | Some orphans =>
              forEach (fun o i => add now o (Num i) ;;; ret tt) 0 orphans ;;;
              modify (fun st => with_orphanTxByPrev (delete txHash (orphanTxByPrev st)) st)
          | None => ret tt
          end ;;;
          emit (TxNotify tx) ;;;
          do la <- gets liveAccounting ;;
          if la then
            forEach (fun i _ =>
                       modify (fun st =>
                                 with_txIndexByAcc
                                   (<[i := default [] (txIndexByAcc st !! i) ++ [txHash]]>
                                      (txIndexByAcc st)) st) ;;;
                       emit (TxNotifyAcc i tx))
                    0 (getAffectedAccounts tx)
          else ret tt
      end
  | _ => ret tt     (* "verification callback misfired" *)
  end.

(** [TransactionStore.prototype.get] *)
Definition get (h : string) (callback : Callback) : M (option Transaction) :=
  do idx <- gets txIndex ;;
  match idx !! h with
  | Some (Queue q) =>
      (if is_function callback
       then modify (with_txIndex (<[h := Queue (q ++ [callback])]> idx))
       else ret tt) ;;;
      ret None
  | Some (Verified tx) =>
      (if is_function callback then invoke callback None (Some tx) else ret tt) ;;;
      ret (Some tx)
  | None =>
      (if is_function callback then invoke callback None None else ret tt) ;;;
      ret None
  end.

(** [TransactionStore.prototype.isKnown]: [!!this.txIndex[hash]]; arrays
    and objects are truthy, a missing property is not. *)
Definition isKnown (st : Store) (h : string) : bool :=
  match txIndex st !! h with
  | Some _ => true
  | None => false
  end.

(** The payload of a [txAdd] event of the block chain. *)
Record TxAddEvent : Type := mkTxAddEvent { tx : Transaction }.

(** [TransactionStore.prototype.handleTxAdd]; the body of the loop over
    the inputs holds comments only. *)
Definition handleTxAdd (e : TxAddEvent) : M unit :=
  let txHash := hash (tx e) in
  remove txHash ;;;
  if negb (isCoinBase (tx e))
  then forEach (fun _ _ => ret tt) 0 (ins (tx e))
  else ret tt.

(** *** The store over time.  Between two turns of the event loop one of
    these happens; [OpVerified] is an outstanding [tx.verify] reporting
    its outcome, with the outcome chosen by the verifier. *)
Inductive Op : Type :=
| OpAdd (now : nat) (t : Transaction) (callback : Callback)
| OpVerified (now : nat) (txHash : string) (err : option exn)
| OpRemove (h : string)
| OpGet (h : string) (callback : Callback)
| OpHandleTxAdd (e : TxAddEvent).

Fixpoint take_verifying (h : string) (l : list Transaction)
  : option (Transaction * list Transaction) :=
  match l with
  | [] => None
  | t :: r =>
      if String.eqb (hash t) h then Some (t, r)
      else match take_verifying h r with
           | Some (t', r') => Some (t', t :: r')
           | None => None
           end
  end.

Definition step (st : Store) (op : Op) : Store :=
  match op with
  | OpAdd now t cb => fst (add now t cb st)
  | OpVerified now h err =>
      match take_verifying h (verifying st) with
      | Some (t, rest) => fst (verifyCallback now t err (with_verifying rest st))
      | None => st
      end
  | OpRemove h => fst (remove h st)
  | OpGet h cb => fst (get h cb st)
  | OpHandleTxAdd e => fst (handleTxAdd e st)
  end.

Definition run (ops : list Op) (st : Store) : Store := fold_left step ops st.

(** Whether the store was ever handed a transaction filed under [h]. *)
Definition adds (h : string) (op : Op) : Prop :=
  match op with
  | OpAdd _ t _ => hash t = h
  | _ => False
  end.

(** *** The three states of an entry, and what holds of every store *)

(** [h] is being verified: [txIndex[h]] is an array of callbacks. *)
Definition queued (st : Store) (h : string) : Prop :=
  exists q, txIndex st !! h = Some (Queue q).

(** [h] is accepted: [txIndex[h]] is a transaction. *)
Definition accepted (st : Store) (h : string) : Prop :=
  exists t, txIndex st !! h = Some (Verified t).

(** [h] is an orphan: [orphanTxIndex[h]] is set. *)
Definition orphan (st : Store) (h : string) : Prop :=
  is_Some (orphanTxIndex st !! h).

Record Inv (st : Store) : Prop := mkInv {
  inv_verifying : forall t, t ∈ verifying st -> queued st (hash t);
  inv_nodup : NoDup (hash <$> verifying st);
  inv_orphan : forall h, orphan st h -> queued st h /\ h ∉ (hash <$> verifying st)
}.

(** Nothing in the store is filed under, or carries, the hash [h]. *)
Definition Fresh (h : string) (st : Store) : Prop :=
  txIndex st !! h = None
  /\ (forall t, t ∈ verifying st -> hash t <> h)
  /\ (forall k l t, orphanTxByPrev st !! k = Some l -> t ∈ l -> hash t <> h).

Definition preserves {A} (P : Store -> Prop) (m : M A) : Prop :=
  forall st, P st -> P (fst (m st)).

(** [P] does not look at the event and call logs nor at the account index. *)
Definition log_blind (P : Store -> Prop) : Prop :=
  (forall l st, P st -> P (with_emitted l st))
  /\ (forall l st, P st -> P (with_calls l st))
  /\ (forall m st, P st -> P (with_txIndexByAcc m st)).

(** *** The account index *)

(** The loop of [getByAccount] over the hashes filed under an account:
    [newIndex] keeps the hashes that still have an entry, [txList]
    collects their entries (an entry is never a function, so the test
    [typeof tx !== 'function'] lets each of them through). *)
Fixpoint getByAccount_loop (idx : gmap string Entry) (accIndex : list string)
         (newIndex : list string) (txList : list Entry) : list string * list Entry :=
  match accIndex with
  | [] => (newIndex, txList)
  | h :: r =>
      match idx !! h with
      | Some tx => getByAccount_loop idx r (newIndex ++ [h]) (txList ++ [tx])
      | None => getByAccount_loop idx r newIndex txList
      end
  end.

(** [TransactionStore.prototype.getByAccount], called with a string. *)
Definition getByAccount (pubKeyHash : string) : M (list Entry) :=
  do byAcc <- gets txIndexByAcc ;;
  match byAcc !! pubKeyHash with
  | None => ret []
  | Some accIndex =>
      do idx <- gets txIndex ;;
      let '(newIndex, txList) := getByAccount_loop idx accIndex [] [] in
      match newIndex with
      | _ :: _ =>
          modify (fun st => with_txIndexByAcc
                              (<[pubKeyHash := newIndex]> (txIndexByAcc st)) st)
      | [] =>
          modify (fun st => with_txIndexByAcc
                              (delete pubKeyHash (txIndexByAcc st)) st)
      end ;;;
      ret txList
  end.

(** Whether [op] is the report of the verification of the hash [h]. *)
Definition reports (h : string) (op : Op) : Prop :=
  match op with
  | OpVerified _ h' _ => h' = h
  | _ => False
  end.

(** Every accepted transaction is filed under its own hash. *)
Definition keyed (st : Store) : Prop :=
  forall h s, txIndex st !! h = Some (Verified s) -> hash s = h.

(** The calls of caller-supplied functions that running the queue [q]
    with [(err, tx)] records. *)
Definition user_calls (q : list Callback) (err : option exn) (t : option Transaction)
  : list Call :=
  omap (fun cb => match cb with
                  | UserFn id => Some (mkCall id err t)
                  | _ => None
                  end) q.

(** The account index after [txHash] has been filed under each of [accs]. *)
Definition file_under (txHash : string) (accs : list string)
           (m : gmap string (list string)) : gmap string (list string) :=
  fold_left (fun m a => <[a := default [] (m !! a) ++ [txHash]]> m) accs m.

End TransactionStore.

Module NodeSM.

(** The [Node] state machine.  The collaborators that a state change
    switches on are recorded, in call order, in [actions]. *)
Inductive Action : Type :=
| BlockChainInit
| PeerManagerEnable
| TxSenderEnable
| BcManagerEnable
| RpcServerEnable.

Record Node : Type := mkNode {
  state : option string;      (* [null] before [start] *)
  running : bool;
  actions : list Action
}.

(** The payload of a [stateChange] event. *)
Record StateChange : Type := mkStateChange {
  oldState : option string;
  newState : string
}.

(** [new Node(cfg)], as far as the state machine goes. *)
Definition new : Node := mkNode None false [].

(** [Array.prototype.indexOf] on an array of strings. *)
Fixpoint indexOf_from (i : Z) (l : list string) (x : string) : Z :=
  match l with
  | [] => -1
  | y :: r => if String.eqb y x then i else indexOf_from (i + 1) r x
  end.

Definition indexOf (l : list string) (x : string) : Z := indexOf_from 0 l x.

(** Truthiness of a number. *)
Definition truthy (z : Z) : bool := negb (z =? 0)%Z.

Definition call (a : list Action) (n : Node) : Node :=
  mkNode (state n) (running n) (actions n ++ a).

(** [Node.prototype.handleStateChange] *)
Definition handleStateChange (n : Node) (e : StateChange) : Node :=
  let n1 :=
    mkNode (state n)
           (negb (negb (truthy (Z.lnot (indexOf ["netConnect"; "blockDownload"; "default"]
                                                (newState e))))))
           (actions n) in
  if String.eqb (newState e) "init" then call [BlockChainInit] n1
  else if String.eqb (newState e) "netConnect"
       then call [PeerManagerEnable; TxSenderEnable; BcManagerEnable; RpcServerEnable] n1
  else if String.eqb (newState e) "blockDownload" then n1
  else n1.

(** [Node.prototype.setState]; the [stateChange] event it emits is
    delivered at once to [handleStateChange], the listener the constructor
    registered. *)
Definition setState (n : Node) (s : string) : Node :=
  let old := state n in
  if String.eqb s "init" && match old with Some _ => true | None => false end
  then n
  else handleStateChange (mkNode (Some s) (running n) (actions n))
                         (mkStateChange old s).

(** [Node.prototype.start] *)
Definition start (n : Node) : Node := setState n "init".

(** The listeners of [setupStateTransitions]. *)
Definition onInitComplete (n : Node) : Node :=
  match state n with
  | Some s => if String.eqb s "init" then setState n "netConnect" else n
  | None => n
  end.

Definition onNetConnected (n : Node) : Node :=
  match state n with
  | Some s => if String.eqb s "netConnect" then setState n "blockDownload" else n
  | None => n
  end.

(** The events that drive the state machine. *)
Inductive NodeEvent : Type :=
| EvStart             (* a call of [start] *)
| EvInitComplete      (* the block chain emits 'initComplete' *)
| EvNetConnected.     (* the peer manager emits 'netConnected' *)

Definition on_event (n : Node) (ev : NodeEvent) : Node :=
  match ev with
  | EvStart => start n
  | EvInitComplete => onInitComplete n
  | EvNetConnected => onNetConnected n
  end.

Definition run_events (evs : list NodeEvent) (n : Node) : Node :=
  fold_left on_event evs n.

End NodeSM.

Module NodeDispatch.
Import TransactionStore.

(** The message handlers of [Node] that talk to the transaction store. *)

(** An entry of an [inv] or [getdata] message; [inv_hash] is the hash as
    the store files it. *)
Record InvItem : Type := mkInvItem {
  inv_type : Z;
  inv_hash : string
}.

(** [Node.prototype.handleGetdata]: the store it leaves and the
    transactions handed to [e.conn.sendTx], oldest first.  [get] is
    called without a callback. *)
Fixpoint handleGetdata (invs : list InvItem) (st : Store) (sent : list Transaction)
  : Store * list Transaction :=
  match invs with
  | [] => (st, sent)
  | inv :: r =>
      if (inv_type inv =? 1)%Z then
        match get (inv_hash inv) Undefined st with
        | (st1, Normal (Some t)) => handleGetdata r st1 (sent ++ [t])
        | (st1, Normal None) => handleGetdata r st1 sent
        | (st1, Abrupt _) => (st1, sent)
        end
      else handleGetdata r st sent
  end.

(** [Node.prototype.handleTx]; [logger] stands for the logging function
    it passes to [add]. *)
Definition handleTx (logger : nat) (now : nat) (t : Transaction) (st : Store) : Store :=
  if isKnown st (hash t) then st
  else fst (add now t (UserFn logger) st).

(** The variables that one call of [handleInv] shares with the callbacks
    it hands to [storage.knowsBlock]. *)
Record InvCheck : Type := mkInvCheck {
  toCheck : Z;
  unknownInvs : list InvItem;
  awaiting : list nat;             (* indices whose [knowsBlock] has not reported *)
  getdata : list (list InvItem)    (* the [e.conn.sendGetData] calls, oldest first *)
}.

(** [if (toCheck === 0 && unknownInvs.length) e.conn.sendGetData(unknownInvs)] *)
Definition maybe_send (c : InvCheck) : InvCheck :=
  if (toCheck c =? 0)%Z && negb (length (unknownInvs c) =? 0)%nat
  then mkInvCheck (toCheck c) (unknownInvs c) (awaiting c) (getdata c ++ [unknownInvs c])
  else c.

(** The loop of [handleInv] from index [i] on. *)
Fixpoint handleInv_loop (st : Store) (i : nat) (invs : list InvItem) (c : InvCheck)
  : InvCheck :=
  match invs with
  | [] => c
  | inv :: r =>
      handleInv_loop st (S i) r
        (if (inv_type inv =? 1)%Z then
           mkInvCheck (toCheck c - 1)
                      (if negb (isKnown st (inv_hash inv))
                       then unknownInvs c ++ [inv] else unknownInvs c)
                      (awaiting c) (getdata c)
         else if (inv_type inv =? 2)%Z then
           mkInvCheck (toCheck c) (unknownInvs c) (awaiting c ++ [i]) (getdata c)
         else c)
  end.

(** [Node.prototype.handleInv], up to its return; the reports of
    [storage.knowsBlock] come in later. *)
Definition handleInv (st : Store) (invs : list InvItem) : InvCheck :=
  maybe_send (handleInv_loop st 0 invs (mkInvCheck (Z.of_nat (length invs)) [] [] [])).

(** The callback of [storage.knowsBlock] for the inv at index [i]
    reporting [(err, known)]; a report nobody waits for is not delivered. *)
Definition knowsBlock_reply (invs : list InvItem) (c : InvCheck)
           (r : nat * bool * bool) : InvCheck :=
  let '(i, err, known) := r in
  if bool_decide (i ∈ awaiting c) then
    let unknown :=
      if err then unknownInvs c
      else if negb known
           then match invs !! i with
                | Some inv => unknownInvs c ++ [inv]
                | None => unknownInvs c
                end
           else unknownInvs c in
    maybe_send (mkInvCheck (toCheck c - 1) unknown
                           (filter (fun j => j <> i) (awaiting c)) (getdata c))
  else c.

Definition knowsBlock_replies (invs : list InvItem) (rs : list (nat * bool * bool))
           (c : InvCheck) : InvCheck :=
  fold_left (knowsBlock_reply invs) rs c.

(** *** The parts of an inv message, for stating what [handleInv] does *)

(** The transaction invs the store does not know, in message order. *)
Definition unknown_txs (st : Store) (invs : list InvItem) : list InvItem :=
  List.filter (fun inv => (inv_type inv =? 1)%Z && negb (isKnown st (inv_hash inv))) invs.

(** The positions of the block invs, counted from [i]. *)
Fixpoint block_indices (i : nat) (invs : list InvItem) : list nat :=
  match invs with
  | [] => []
  | inv :: r =>
      if negb (inv_type inv =? 1)%Z && (inv_type inv =? 2)%Z
      then i :: block_indices (S i) r
      else block_indices (S i) r
  end.

(** The invs that are neither transactions nor blocks. *)
Definition other_types (invs : list InvItem) : list InvItem :=
  List.filter (fun inv => negb (inv_type inv =? 1)%Z && negb (inv_type inv =? 2)%Z) invs.

(** The inv a report adds to the unknown ones. *)
Definition reported_unknown (invs : list InvItem) (r : nat * bool * bool)
  : option InvItem :=
  let '(i, err, known) := r in
  if err || known then None else invs !! i.

End NodeDispatch.

(** ** Concrete data used to run the definitions *)

Module Samples.

(** The hash of the main-network genesis block, in buffer order. *)
Definition genesis_hash : Buffer :=
  [x6f; xe2; x8c; x0a; xb6; xf1; xb3; x72; xc1; xa6; xa2; x46; xae; x63; xf7; x4f;
   x93; x1e; x83; x65; xe1; x5a; x08; x9c; x68; xd6; x19; x00; x00; x00; x00; x00].

Definition genesis_merkle_root : Buffer :=
  [x3b; xa3; xed; xfd; x7a; x7b; x12; xb2; x7a; xc7; x2c; x3e; x67; x76; x8f; x61;
   x7f; xc8; x1b; xc3; x88; x8a; x51; x32; x3a; x9f; xb8; xaa; x4b; x1e; x5e; x4a].

Definition genesis : BlockSchema.Block :=
  BlockSchema.mkBlock (Some genesis_hash) (Some NULL_HASH) (Some genesis_merkle_root)
                      1231006505 486604799 2083236893 "1" 0 285 true None.

(** A child spending an output of a parent the store has not seen, the
    parent, and two transactions that spend the same outpoint. *)
Definition txP : TransactionStore.Transaction :=
  TransactionStore.mkTx "cGFyZW50" false true [("Z2VuZXNpcw==", 0%Z)] ["YWxpY2U="] None.
Definition txC : TransactionStore.Transaction :=
  TransactionStore.mkTx "Y2hpbGQ=" false true [("cGFyZW50", 0%Z)] ["Ym9i"] None.
Definition txA : TransactionStore.Transaction :=
  TransactionStore.mkTx "c3BlbmRB" false true [("c291cmNl", 1%Z)] ["YWxpY2U="] None.
Definition txB : TransactionStore.Transaction :=
  TransactionStore.mkTx "c3BlbmRC" false true [("c291cmNl", 1%Z)] ["Ym9i"] None.
Definition txCoinbase : TransactionStore.Transaction :=
  TransactionStore.mkTx "Y29pbmJhc2U=" true true [("AAAA", 4294967295%Z)] ["bWluZXI="] None.
Definition txOdd : TransactionStore.Transaction :=
  TransactionStore.mkTx "b2Rk" false false [("c291cmNl", 0%Z)] [] None.

End Samples.

(** * Properties *)

(** ** Buffers as numbers *)

Section BufferFacts.

Lemma be_from_cons acc b l : be_from acc (b :: l) = be_from (256 * acc + Byte.to_N b) l.
Proof. reflexivity. Qed.

Lemma be_from_acc l : forall acc,
  be_from acc l = (acc * 256 ^ N.of_nat (length l) + be_from 0 l)%N.
Proof.
  induction l as [|b l IH]; intros acc.
  - cbn. lia.
  - rewrite !be_from_cons, (IH (256 * acc + _)%N), (IH (256 * 0 + _)%N).
    cbn [length]. rewrite Nat2N.inj_succ, N.pow_succ_r'. lia.
Qed.

Lemma be_from_bound l : (be_from 0 l < 256 ^ N.of_nat (length l))%N.
Proof.
  induction l as [|b l IH].
  - cbn. lia.
  - rewrite be_from_cons, be_from_acc. cbn [length].
    rewrite Nat2N.inj_succ, N.pow_succ_r'.
    pose proof (Byte.to_N_bounded b). nia.
Qed.

Lemma be_int_cons b l :
  be_int (b :: l) = (Byte.to_N b * 256 ^ N.of_nat (length l) + be_int l)%N.
Proof.
  unfold be_int. change (fold_left _ (b :: l) 0%N) with (be_from 0 (b :: l)).
  rewrite be_from_cons, be_from_acc.
  replace (256 * 0 + Byte.to_N b)%N with (Byte.to_N b) by lia. reflexivity.
Qed.

Lemma be_int_snoc l b : be_int (l ++ [b]) = (256 * be_int l + Byte.to_N b)%N.
Proof. unfold be_int. now rewrite fold_left_app. Qed.

(** Reading a reversed buffer most significant byte first is reading the
    buffer least significant byte first. *)
Lemma be_int_rev l : be_int (rev l) = le_int l.
Proof.
  induction l as [|b l IH]; [reflexivity|].
  cbn [rev le_int]. rewrite be_int_snoc, IH. lia.
Qed.

Lemma bytes_compare_numeric a : forall b,
  length a = length b ->
  bytes_compare a b = sign_of (N.compare (be_int a) (be_int b)).
Proof.
  induction a as [|x a IH]; intros [|y b] Hlen; try discriminate.
  - reflexivity.
  - injection Hlen as Hlen. cbn [bytes_compare].
    rewrite !be_int_cons, <- Hlen.
    pose proof (be_from_bound a) as Ha. pose proof (be_from_bound b) as Hb.
    rewrite <- Hlen in Hb.
    change (be_from 0 a) with (be_int a) in Ha.
    change (be_from 0 b) with (be_int b) in Hb.
    set (w := (256 ^ N.of_nat (length a))%N) in *.
    destruct (N.compare_spec (Byte.to_N x) (Byte.to_N y)) as [E|L|G].
    + rewrite E, (IH b Hlen).
      destruct (N.compare_spec (be_int a) (be_int b));
        destruct (N.compare_spec (Byte.to_N y * w + be_int a)
                                 (Byte.to_N y * w + be_int b));
        try reflexivity; lia.
    + destruct (N.compare_spec (Byte.to_N x * w + be_int a)
                               (Byte.to_N y * w + be_int b));
        try reflexivity; nia.
    + destruct (N.compare_spec (Byte.to_N x * w + be_int a)
                               (Byte.to_N y * w + be_int b));
        try reflexivity; nia.
Qed.

Lemma Buffer_compare_same_length a b :
  length a = length b -> Buffer_compare a b = bytes_compare a b.
Proof.
  intros H. unfold Buffer_compare. rewrite H, Nat.ltb_irrefl. reflexivity.
Qed.

(** On buffers of one length the order of [compare] is the numeric one. *)
Lemma Buffer_compare_numeric a : forall b,
  length a = length b ->
  Buffer_compare a b = sign_of (N.compare (be_int a) (be_int b)).
Proof.
  intros b H. rewrite (Buffer_compare_same_length a b H).
  now apply bytes_compare_numeric.
Qed.

Lemma bytes_compare_refl a : bytes_compare a a = 0%Z.
Proof.
  induction a as [|x a IH]; [reflexivity|].
  cbn [bytes_compare]. now rewrite N.compare_refl.
Qed.

Lemma Buffer_compare_refl a : Buffer_compare a a = 0%Z.
Proof. rewrite Buffer_compare_same_length by reflexivity. apply bytes_compare_refl. Qed.

Lemma bytes_compare_eq a : forall b, bytes_compare a b = 0%Z -> a = b.
Proof.
  induction a as [|x a IH]; intros [|y b] H; cbn [bytes_compare] in H;
    try discriminate; [reflexivity|].
  destruct (N.compare_spec (Byte.to_N x) (Byte.to_N y)) as [E|L|G]; try discriminate.
  f_equal; [|now apply IH].
  apply (f_equal Byte.of_N) in E. rewrite !Byte.of_to_N in E. congruence.
Qed.

Lemma Buffer_compare_eq a : forall b, Buffer_compare a b = 0%Z -> a = b.
Proof.
  intros b H. unfold Buffer_compare in H.
  destruct (length a <? length b)%nat; [discriminate|].
  destruct (length b <? length a)%nat; [discriminate|].
  now apply bytes_compare_eq.
Qed.

Lemma be_bytes_length n : forall z, length (be_bytes n z) = n.
Proof.
  induction n as [|n IH]; intros z; [reflexivity|].
  cbn [be_bytes]. rewrite length_app, IH. cbn. lia.
Qed.

Lemma decodeDiffBits_model_length bits : length (decodeDiffBits_model bits) = 32%nat.
Proof. apply be_bytes_length. Qed.

End BufferFacts.

(** ** Block checks *)

Module BlockFacts.
Import BlockSchema.

Section Checks.

Variable decodeDiffBits : Z -> Buffer.
Variable twoSha256 : Buffer -> Buffer.
Variable Tx : Type.
Variable getHash : Tx -> Buffer.

Lemma set_hash_same B h : hash B = Some h -> set_hash B (Some h) = B.
Proof. destruct B; cbn; intros ->; reflexivity. Qed.

Lemma set_hash_twice B h1 h2 : set_hash (set_hash B h1) h2 = set_hash B h2.
Proof. reflexivity. Qed.

Lemma checkProofOfWork_compare B h :
  hash B = Some h ->
  fst (checkProofOfWork decodeDiffBits B) =
    if (0 <? Buffer_compare (rev h) (decodeDiffBits (bits B)))%Z
    then Abrupt (ThrownString "Difficulty target not met")
    else Normal true.
Proof.
  intros Hh. unfold checkProofOfWork. rewrite Hh.
  destruct (0 <? _)%Z; reflexivity.
Qed.

(** C5.  With a 32-byte hash and a 32-byte target, [checkProofOfWork]
    returns [true] exactly when the hash, read as a little-endian
    unsigned integer, is at most the decoded target; when the hash is
    above the target it throws 'Difficulty target not met'. *)
Theorem checkProofOfWork_iff (B : Block) (h : Buffer) :
  hash B = Some h ->
  length h = 32%nat ->
  length (decodeDiffBits (bits B)) = 32%nat ->
  (fst (checkProofOfWork decodeDiffBits B) = Normal true
     <-> (le_int h <= be_int (decodeDiffBits (bits B)))%N)
  /\ ((be_int (decodeDiffBits (bits B)) < le_int h)%N ->
      fst (checkProofOfWork decodeDiffBits B)
        = Abrupt (ThrownString "Difficulty target not met")).
Proof.
  intros Hh Hlen Htarget.
  rewrite (checkProofOfWork_compare B h Hh).
  rewrite Buffer_compare_numeric by (rewrite length_rev; congruence).
  rewrite be_int_rev.
  destruct (N.compare_spec (le_int h) (be_int (decodeDiffBits (bits B))))
    as [E|L|G]; cbn.
  - split; [split; [lia|reflexivity]|lia].
  - split; [split; [lia|reflexivity]|lia].
  - split; [split; [discriminate|lia]|reflexivity].
Qed.

(** C9.  When [checkProofOfWork] returns, the block it leaves behind is
    the block it was given: the hash is back in its original byte order
    and every other field is untouched. *)
Theorem checkProofOfWork_restores (B B' : Block) (r : bool) :
  checkProofOfWork decodeDiffBits B = (Normal r, B') -> B' = B.
Proof.
  unfold checkProofOfWork.
  destruct (hash B) as [h|] eqn:Hh; [|discriminate].
  destruct (0 <? _)%Z; [discriminate|].
  intros H. injection H as _ <-.
  rewrite set_hash_twice, rev_involutive. now apply set_hash_same.
Qed.

(** On the path that throws, the hash is left reversed. *)
Lemma checkProofOfWork_throw_leaves_reversed B h e B' :
  hash B = Some h ->
  checkProofOfWork decodeDiffBits B = (Abrupt e, B') ->
  hash B' = Some (rev h).
Proof.
  intros Hh. unfold checkProofOfWork. rewrite Hh.
  destruct (0 <? _)%Z; [|discriminate].
  intros H. injection H as _ <-. reflexivity.
Qed.

Lemma calcMerkleRoot_single t :
  calcMerkleRoot twoSha256 getHash (Some [t]) = Normal (getHash t).
Proof. reflexivity. Qed.

Lemma calcMerkleRoot_many t1 t2 txs :
  exists e, calcMerkleRoot twoSha256 getHash (Some (t1 :: t2 :: txs)) = Abrupt e.
Proof. eexists. reflexivity. Qed.

Lemma canonical_merkle_root_single t :
  canonical_merkle_root twoSha256 getHash [t] = getHash t.
Proof. reflexivity. Qed.

(** The test of [checkMerkleRoot] lets a root through exactly when it
    differs from the stored one. *)
Lemma merkleRootTest_passes_iff computed stored :
  merkleRootTest computed stored = Normal true <-> computed <> stored.
Proof.
  unfold merkleRootTest.
  destruct (Buffer_compare computed stored =? 0)%Z eqn:E.
  - apply Z.eqb_eq, Buffer_compare_eq in E. split; [discriminate|congruence].
  - split; [|reflexivity]. intros _ ->.
    rewrite Buffer_compare_refl in E. discriminate.
Qed.

(** [checkMerkleRoot] never returns: every call ends in an exception. *)
Lemma checkMerkleRoot_always_throws B txs :
  exists e, checkMerkleRoot twoSha256 getHash B txs = Abrupt e.
Proof. unfold checkMerkleRoot. destruct (merkle_root B); eexists; reflexivity. Qed.

(** C1.  A block whose stored merkle root is the canonical root of its
    transactions is not accepted: [checkMerkleRoot] calls
    [calcMerkleRoot] without the transactions and ends in a TypeError;
    and were the one transaction of a block handed on, the comparison
    would throw 'Merkle root incorrect' on the matching root. *)
Theorem checkMerkleRoot_rejects_canonical_root (B : Block) (txs : list Tx) (t : Tx) :
  let B' := set_merkle_root B (Some (canonical_merkle_root twoSha256 getHash txs)) in
  checkMerkleRoot twoSha256 getHash B' txs
    = Abrupt (TypeError "Cannot read property 'length' of undefined")
  /\ cbind (calcMerkleRoot twoSha256 getHash (Some [t]))
           (fun computed =>
              merkleRootTest computed (canonical_merkle_root twoSha256 getHash [t]))
     = Abrupt (ThrownString "Merkle root incorrect").
Proof.
  split; [reflexivity|].
  rewrite calcMerkleRoot_single, canonical_merkle_root_single. cbn [cbind].
  unfold merkleRootTest. now rewrite Buffer_compare_refl.
Qed.

End Checks.

(** The genesis block meets its own target. *)
Lemma checkProofOfWork_iff_witness :
  fst (checkProofOfWork decodeDiffBits_model Samples.genesis) = Normal true
  /\ (le_int Samples.genesis_hash
      <= be_int (decodeDiffBits_model (bits Samples.genesis)))%N.
Proof.
  pose proof (checkProofOfWork_iff decodeDiffBits_model Samples.genesis
                Samples.genesis_hash eq_refl eq_refl
                (decodeDiffBits_model_length _)) as [Hiff _].
  assert (Hle : (le_int Samples.genesis_hash
                 <= be_int (decodeDiffBits_model (bits Samples.genesis)))%N)
    by (vm_compute; discriminate).
  split; [apply Hiff, Hle|exact Hle].
Defined.

Lemma checkProofOfWork_restores_witness :
  checkProofOfWork decodeDiffBits_model Samples.genesis = (Normal true, Samples.genesis)
  /\ Samples.genesis = Samples.genesis.
Proof.
  split; [vm_compute; reflexivity|].
  apply (checkProofOfWork_restores decodeDiffBits_model Samples.genesis
           Samples.genesis true).
  vm_compute. reflexivity.
Defined.

End BlockFacts.

(** ** Node state machine *)

Module NodeFacts.
Import NodeSM.

Lemma running_handleStateChange n e :
  running (handleStateChange n e)
  = negb (negb (truthy (Z.lnot (indexOf ["netConnect"; "blockDownload"; "default"]
                                        (newState e))))).
Proof.
  unfold handleStateChange.
  repeat match goal with |- context [if ?b then _ else _] => destruct b end; reflexivity.
Qed.

(** C7, as the code has it.  After a state change the [running] flag is
    set exactly when the new state is 'netConnect', 'blockDownload' or
    'default'; for any other state, 'active' among them, it is cleared. *)
Theorem running_after_stateChange (n : Node) (e : StateChange) :
  running (handleStateChange n e) = true
  <-> newState e = "netConnect" \/ newState e = "blockDownload" \/ newState e = "default".
Proof.
  rewrite running_handleStateChange. unfold indexOf. cbn [indexOf_from].
  destruct (String.eqb_spec "netConnect" (newState e)) as [E1|N1];
    [split; [auto|reflexivity]|].
  destruct (String.eqb_spec "blockDownload" (newState e)) as [E2|N2];
    [split; [auto|reflexivity]|].
  destruct (String.eqb_spec "default" (newState e)) as [E3|N3];
    [split; [auto|reflexivity]|].
  split; [discriminate|]. intros [H|[H|H]]; congruence.
Qed.

(** [setState] either refuses the change (a second 'init') or leaves the
    flag as [handleStateChange] sets it. *)
Lemma setState_running n s :
  running (setState n s)
  = if String.eqb s "init" && match state n with Some _ => true | None => false end
    then running n
    else String.eqb "netConnect" s || String.eqb "blockDownload" s
         || String.eqb "default" s.
Proof.
  unfold setState.
  destruct (String.eqb s "init" && _); [reflexivity|].
  rewrite running_handleStateChange. unfold indexOf. cbn [indexOf_from newState].
  destruct (String.eqb "netConnect" s); [reflexivity|].
  destruct (String.eqb "blockDownload" s); [reflexivity|].
  destruct (String.eqb "default" s); reflexivity.
Qed.

(** C7, as stated, fails: a node that is downloading blocks and moves to
    'active' ends with [running] cleared. *)
Lemma running_cleared_in_active :
  let n := setState (mkNode (Some "blockDownload") true []) "active" in
  state n = Some "active" /\ running n = false.
Proof. split; reflexivity. Qed.

(** The start-up sequence of the source keeps the flag set from
    'netConnect' on. *)
Lemma startup_running :
  let n1 := start new in
  let n2 := onInitComplete n1 in
  let n3 := onNetConnected n2 in
  (state n1, running n1) = (Some "init", false)
  /\ (state n2, running n2) = (Some "netConnect", true)
  /\ (state n3, running n3) = (Some "blockDownload", true).
Proof. repeat split. Qed.

End NodeFacts.

(** ** The transaction store *)

Module StoreFacts.
Import TransactionStore.

(** *** Rules for store computations *)

Section Rules.

Context {A B : Type} (P : Store -> Prop).

Lemma preserves_ret (a : A) : preserves P (ret a).
Proof. intros st H. exact H. Qed.

Lemma preserves_throw (e : exn) : preserves P (@throw A e).
Proof. intros st H. exact H. Qed.

Lemma preserves_gets (f : Store -> A) : preserves P (gets f).
Proof. intros st H. exact H. Qed.

Lemma preserves_modify (f : Store -> Store) :
  (forall st, P st -> P (f st)) -> preserves P (modify f).
Proof. intros Hf st H. apply Hf, H. Qed.

Lemma preserves_bind (m : M A) (k : A -> M B) :
  preserves P m -> (forall a, preserves P (k a)) -> preserves P (bind m k).
Proof.
  intros Hm Hk st H. unfold bind.
  specialize (Hm st H). destruct (m st) as [st1 [a|e]]; cbn in *.
  - apply Hk, Hm.
  - exact Hm.
Qed.

(** A continuation may use what it has just read from the store. *)
Lemma preserves_gets_bind (f : Store -> A) (k : A -> M B) :
  (forall st, P st -> P (fst (k (f st) st))) -> preserves P (bind (gets f) k).
Proof. intros Hk st H. apply Hk, H. Qed.

Lemma preserves_try_catch (m : M A) (handler : exn -> M A) :
  preserves P m -> (forall e, preserves P (handler e)) -> preserves P (try_catch m handler).
Proof.
  intros Hm Hh st H. unfold try_catch.
  specialize (Hm st H). destruct (m st) as [st1 [a|e]]; cbn in *.
  - exact Hm.
  - apply Hh, Hm.
Qed.

End Rules.

Lemma preserves_forEach {A} (P : Store -> Prop) (f : A -> nat -> M unit) (xs : list A) :
  (forall x i, x ∈ xs -> preserves P (f x i)) ->
  forall i, preserves P (forEach f i xs).
Proof.
  induction xs as [|x xs IH]; intros Hf i; cbn [forEach].
  - apply preserves_ret.
  - apply preserves_bind.
    + apply Hf. left.
    + intros _. apply IH. intros y j Hy. apply Hf. now right.
Qed.

Lemma preserves_if {A} (P : Store -> Prop) (b : bool) (m1 m2 : M A) :
  preserves P m1 -> preserves P m2 -> preserves P (if b then m1 else m2).
Proof. destruct b; auto. Qed.

(** Running a computation whose first step is known. *)
Lemma run_bind_modify {B} (f : Store -> Store) (k : unit -> M B) st :
  bind (modify f) k st = k tt (f st).
Proof. reflexivity. Qed.

Lemma run_bind_gets {A B} (f : Store -> A) (k : A -> M B) st :
  bind (gets f) k st = k (f st) st.
Proof. reflexivity. Qed.

Lemma run_bind_ret {A B} (a : A) (k : A -> M B) st : bind (ret a) k st = k a st.
Proof. reflexivity. Qed.

(** *** Properties that look at some fields only *)

Lemma preserves_emit P ev : log_blind P -> preserves P (emit ev).
Proof. intros [He _]. apply preserves_modify. intros st. apply He. Qed.

Lemma run_bind_assoc {A B C} (m : M A) (k1 : A -> M B) (k2 : B -> M C) st :
  bind (bind m k1) k2 st = bind m (fun a => bind (k1 a) k2) st.
Proof. unfold bind. destruct (m st) as [st1 [a|e]]; reflexivity. Qed.

Ltac from_preserves :=
  match goal with
  | |- ?P (fst (?m ?st)) =>
      let H := fresh "Hpres" in
      assert (H : preserves P m); [|apply H]
  end.

(** *** [add], case by case *)

Lemma add_queued_eq st now t cb q :
  txIndex st !! hash t = Some (Queue q) ->
  add now t cb st
  = (if is_function cb
     then with_txIndex (<[hash t := Queue (q ++ [cb])]> (txIndex st)) st
     else st, Normal false).
Proof.
  intros E. unfold add. rewrite run_bind_gets, E.
  destruct (is_function cb); reflexivity.
Qed.

Lemma add_accepted_eq st now t cb stored :
  txIndex st !! hash t = Some (Verified stored) ->
  add now t cb st
  = bind (if is_function cb then invoke cb None (Some t) else ret tt)
         (fun _ => ret false) st.
Proof. intros E. unfold add. rewrite run_bind_gets, E. reflexivity. Qed.

Lemma add_new_eq st now t cb :
  txIndex st !! hash t = None ->
  add now t cb st
  = if isCoinBase t
    then bind (invoke cb (Some (ErrorObject
                 "Coinbase transactions are only allowed as part of a block")) None)
              (fun _ => ret true) st
    else if negb (isStandard t)
    then bind (invoke cb (Some (ErrorObject
                 "Non-standard transactions are currently not accepted")) None)
              (fun _ => ret true) st
    else (with_txIndex (<[hash t := Queue [cb]]> (txIndex st))
                       (with_verifying (verifying st ++ [stamp now t]) st),
          Normal true).
Proof.
  intros E. unfold add. rewrite run_bind_gets, E. cbn [isCoinBase isStandard stamp].
  destruct (isCoinBase t); [reflexivity|].
  destruct (isStandard t); reflexivity.
Qed.

Lemma invoke_UserFn_eq st id err t :
  invoke (UserFn id) err t st
  = (with_calls (calls st ++ [mkCall id err t]) st, Normal tt).
Proof. reflexivity. Qed.

(** *** [remove], case by case *)

Lemma remove_unknown_eq st h : txIndex st !! h = None -> remove h st = (st, Normal tt).
Proof. intros E. unfold remove. rewrite run_bind_gets, E. reflexivity. Qed.

Lemma remove_queued_eq st h q :
  txIndex st !! h = Some (Queue q) ->
  remove h st
  = (with_txIndex (<[h := Queue (q ++ [RemoveLater h])]> (txIndex st)) st, Normal tt).
Proof. intros E. unfold remove. rewrite run_bind_gets, E. reflexivity. Qed.

Lemma forEach_ret_eq {A} (xs : list A) : forall i st,
  forEach (fun _ _ => ret tt) i xs st = (st, Normal tt).
Proof.
  induction xs as [|x xs IH]; intros i st; [reflexivity|].
  cbn [forEach]. rewrite run_bind_ret. apply IH.
Qed.

Lemma remove_never_throws h st : snd (remove h st) = Normal tt.
Proof.
  unfold remove. rewrite run_bind_gets.
  destruct (txIndex st !! h) as [[q|t]|]; try reflexivity.
  rewrite run_bind_modify. unfold emit at 1. rewrite run_bind_modify, run_bind_gets.
  destruct (liveAccounting _); [|reflexivity].
  generalize 0%nat. generalize (with_emitted
    (emitted (with_txIndex (delete h (txIndex st)) st) ++ [TxCancel t h])
    (with_txIndex (delete h (txIndex st)) st)).
  induction (getAffectedAccounts t) as [|a l IH]; intros s i; [reflexivity|].
  cbn [forEach]. unfold emit at 1. rewrite run_bind_modify. apply IH.
Qed.

(** [handleTxAdd] is [remove] of the confirmed transaction and no more. *)
Lemma handleTxAdd_is_remove e st : handleTxAdd e st = remove (hash (tx e)) st.
Proof.
  unfold handleTxAdd, bind.
  pose proof (remove_never_throws (hash (tx e)) st) as H.
  destruct (remove (hash (tx e)) st) as [st1 c]. cbn in H. subst c.
  destruct (negb (isCoinBase (tx e))); [apply forEach_ret_eq|reflexivity].
Qed.

(** *** The invariant [Inv] *)

Lemma Inv_new la : Inv (new la).
Proof.
  constructor; cbn.
  - intros t Ht. inversion Ht.
  - constructor.
  - intros h [t Ht]. cbn in Ht. rewrite lookup_empty in Ht. discriminate.
Qed.

Lemma Inv_log_blind : log_blind Inv.
Proof.
  unfold log_blind. split; [|split]; intros x s [H1 H2 H3]; constructor; assumption.
Qed.

Lemma Inv_orphanTxByPrev m st : Inv st -> Inv (with_orphanTxByPrev m st).
Proof. intros [H1 H2 H3]; constructor; assumption. Qed.

(** Filing an array under any key keeps the invariant. *)
Lemma Inv_insert_Queue st h q :
  Inv st -> Inv (with_txIndex (<[h := Queue q]> (txIndex st)) st).
Proof.
  assert (Hq : forall k, queued st k ->
                 queued (with_txIndex (<[h := Queue q]> (txIndex st)) st) k).
  { intros k [q' Hk]. unfold queued. cbn.
    destruct (decide (h = k)) as [->|Hne].
    - rewrite lookup_insert_eq. eauto.
    - rewrite lookup_insert_ne by exact Hne. eauto. }
  intros [H1 H2 H3]. constructor; cbn.
  - intros t Ht. apply Hq, H1, Ht.
  - exact H2.
  - intros k Hk. destruct (H3 k Hk) as [Ha Hb]. split; [apply Hq, Ha|exact Hb].
Qed.

(** Changing [txIndex] at a key that is neither awaited nor an orphan
    keeps the invariant. *)
Lemma Inv_change_at st h m' :
  Inv st ->
  h ∉ (hash <$> verifying st) ->
  ~ orphan st h ->
  (forall k, k <> h -> m' !! k = txIndex st !! k) ->
  Inv (with_txIndex m' st).
Proof.
  intros [H1 H2 H3] Hv Ho Hm.
  assert (Hq : forall k, k <> h -> queued st k -> queued (with_txIndex m' st) k).
  { intros k Hne [q Hk]. exists q. cbn. rewrite Hm by exact Hne. exact Hk. }
  constructor; cbn.
  - intros t Ht. apply Hq; [|apply H1, Ht].
    intros E. apply Hv. rewrite <- E. apply list_elem_of_fmap. eauto.
  - exact H2.
  - intros k Hk. destruct (H3 k Hk) as [Ha Hb]. split; [|exact Hb].
    apply Hq; [|exact Ha]. intros ->. apply Ho, Hk.
Qed.

(** An accepted hash is neither awaited nor an orphan. *)
Lemma Inv_accepted_free st h t :
  Inv st -> txIndex st !! h = Some (Verified t) ->
  (h ∉ (hash <$> verifying st)) /\ ~ orphan st h.
Proof.
  intros [H1 H2 H3] E. split.
  - intros Hin. apply list_elem_of_fmap in Hin as [t' [-> Ht']].
    destruct (H1 t' Ht') as [q Hq]. congruence.
  - intros Ho. destruct (H3 h Ho) as [[q Hq] _]. congruence.
Qed.

Lemma preserves_forEach_emit P {A} (f : A -> Event) xs i :
  log_blind P -> preserves P (forEach (fun a _ => emit (f a)) i xs).
Proof. intros HP. apply preserves_forEach. intros. now apply preserves_emit. Qed.

Lemma remove_Inv h : preserves Inv (remove h).
Proof.
  unfold remove. apply preserves_gets_bind. intros st HI.
  destruct (txIndex st !! h) as [[q|t]|] eqn:E.
  - apply Inv_insert_Queue, HI.
  - rewrite run_bind_modify. from_preserves.
    + apply preserves_bind; [apply preserves_emit, Inv_log_blind|intros _].
      apply preserves_bind; [apply preserves_gets|intros la].
      apply preserves_if; [|apply preserves_ret].
      apply (preserves_forEach_emit Inv (fun i => TxCancelAcc i t h)), Inv_log_blind.
    + destruct (Inv_accepted_free st h t HI E) as [Hv Ho].
      apply (Inv_change_at st h); auto.
      intros k Hk. now apply lookup_delete_ne.
  - exact HI.
Qed.

Lemma invoke_Inv cb err t : preserves Inv (invoke cb err t).
Proof.
  destruct cb as [id|h| |n]; cbn [invoke].
  - apply preserves_modify. intros st. apply Inv_log_blind.
  - destruct err; [apply preserves_ret|apply remove_Inv].
  - apply preserves_throw.
  - apply preserves_throw.
Qed.

(** Launching a verification for a hash that has no entry. *)
Lemma Inv_launch st t cb :
  Inv st -> txIndex st !! hash t = None ->
  Inv (with_txIndex (<[hash t := Queue [cb]]> (txIndex st))
                    (with_verifying (verifying st ++ [t]) st)).
Proof.
  intros HI E. pose proof HI as [H1 H2 H3].
  assert (Hfree : hash t ∉ (hash <$> verifying st)).
  { intros Hin. apply list_elem_of_fmap in Hin as [t' [Heq Ht']].
    destruct (H1 t' Ht') as [q Hq]. congruence. }
  assert (Hq : forall k, queued st k ->
     queued (with_txIndex (<[hash t := Queue [cb]]> (txIndex st))
                          (with_verifying (verifying st ++ [t]) st)) k).
  { intros k [q' Hk]. unfold queued. cbn.
    destruct (decide (hash t = k)) as [<-|Hne]; [congruence|].
    rewrite lookup_insert_ne by exact Hne. eauto. }
  constructor; cbn.
  - intros t' Ht'. apply elem_of_app in Ht' as [Ht'|Ht'].
    + apply Hq, H1, Ht'.
    + apply list_elem_of_singleton in Ht' as ->. unfold queued. cbn.
      rewrite lookup_insert_eq. eauto.
  - rewrite fmap_app. apply NoDup_app. split; [exact H2|]. split.
    + intros x Hx Hx'. cbn in Hx'. apply list_elem_of_singleton in Hx' as ->.
      apply Hfree, Hx.
    + cbn. apply NoDup_singleton.
  - intros k Hk. destruct (H3 k Hk) as [Ha Hb]. split; [apply Hq, Ha|].
    rewrite fmap_app. intros Hin. apply elem_of_app in Hin as [Hin|Hin]; [auto|].
    cbn in Hin. apply list_elem_of_singleton in Hin as ->.
    destruct Ha as [q Hq']. congruence.
Qed.

Lemma stamp_hash now t : hash (stamp now t) = hash t.
Proof. reflexivity. Qed.

Lemma add_Inv now t cb : preserves Inv (add now t cb).
Proof.
  intros st HI. destruct (txIndex st !! hash t) as [[q|s]|] eqn:E.
  - rewrite (add_queued_eq _ _ _ _ _ E). cbn.
    destruct (is_function cb); [apply Inv_insert_Queue, HI|exact HI].
  - rewrite (add_accepted_eq _ _ _ _ _ E). revert st HI E.
    intros st HI _. revert st HI. apply preserves_bind.
    + apply preserves_if; [apply invoke_Inv|apply preserves_ret].
    + intros _. apply preserves_ret.
  - rewrite (add_new_eq _ _ _ _ E).
    destruct (isCoinBase t);
      [revert st HI E; intros st HI _; revert st HI;
       apply preserves_bind; [apply invoke_Inv|intros _; apply preserves_ret]|].
    destruct (negb (isStandard t));
      [revert st HI E; intros st HI _; revert st HI;
       apply preserves_bind; [apply invoke_Inv|intros _; apply preserves_ret]|].
    cbn [fst]. apply (Inv_launch st (stamp now t) cb HI E).
Qed.

Lemma take_verifying_spec h l : forall t rest,
  take_verifying h l = Some (t, rest) ->
  hash t = h /\ exists l1 l2, l = l1 ++ t :: l2 /\ rest = l1 ++ l2.
Proof.
  induction l as [|x l IH]; intros t rest H; cbn in H; [discriminate|].
  destruct (String.eqb_spec (hash x) h) as [E|N].
  - injection H as <- <-. split; [exact E|]. exists [], l. split; reflexivity.
  - destruct (take_verifying h l) as [[t' r']|]; [|discriminate].
    injection H as <- <-. destruct (IH t' r' eq_refl) as [Hh [l1 [l2 [-> ->]]]].
    split; [exact Hh|]. exists (x :: l1), l2. split; reflexivity.
Qed.

(** Taking a report out of the list of outstanding verifications. *)
Lemma Inv_take st t rest :
  Inv st -> take_verifying (hash t) (verifying st) = Some (t, rest) ->
  Inv (with_verifying rest st)
  /\ (hash t ∉ (hash <$> rest))
  /\ ~ orphan st (hash t)
  /\ queued st (hash t).
Proof.
  intros [H1 H2 H3] HT.
  destruct (take_verifying_spec _ _ _ _ HT) as [_ [l1 [l2 [Hl ->]]]].
  rewrite Hl in H1, H2, H3.
  rewrite fmap_app in H2. cbn in H2.
  apply NoDup_app in H2 as [N1 [N2 N3]]. apply NoDup_cons in N3 as [N3 N4].
  assert (Hfree : hash t ∉ (hash <$> l1 ++ l2)).
  { rewrite fmap_app. intros Hin. apply elem_of_app in Hin as [Hin|Hin]; [|auto].
    apply (N2 _ Hin). left. }
  split; [|split; [exact Hfree|split]].
  - constructor; cbn.
    + intros t' Ht'. apply H1. apply elem_of_app in Ht' as [?|?];
        apply elem_of_app; [left|right; right]; assumption.
    + rewrite fmap_app. apply NoDup_app. split; [exact N1|]. split; [|exact N4].
      intros x Hx Hx'. apply (N2 x Hx). now right.
    + intros k Hk. destruct (H3 k Hk) as [Ha Hb]. split; [exact Ha|].
      intros Hin. apply Hb. rewrite !fmap_app in *. cbn.
      apply elem_of_app in Hin as [?|?]; apply elem_of_app;
        [left|right; right]; assumption.
  - intros Ho. destruct (H3 _ Ho) as [_ Hb]. apply Hb.
    rewrite fmap_app. apply elem_of_app. right. left.
  - apply H1. apply elem_of_app. right. left.
Qed.

Lemma Inv_orphanTxIndex_insert st h t :
  Inv st -> queued st h -> h ∉ (hash <$> verifying st) ->
  Inv (with_orphanTxIndex (<[h := t]> (orphanTxIndex st)) st).
Proof.
  intros [H1 H2 H3] Hq Hv. constructor; cbn; [exact H1|exact H2|].
  intros k [x Hk]. cbn in Hk. destruct (decide (h = k)) as [<-|Hne].
  - split; assumption.
  - rewrite lookup_insert_ne in Hk by exact Hne. apply H3. now exists x.
Qed.

Lemma preserves_forEach_invoke P err t q :
  (forall cb, preserves P (invoke cb err t)) ->
  forall i, preserves P (forEach (fun cb (_ : nat) => invoke cb err t) i q).
Proof. intros H i. apply preserves_forEach. intros. apply H. Qed.

(** What follows the callbacks on the success path of the verification
    callback keeps any property that [add], the logs and the orphan list
    keep. *)
Lemma preserves_success_tail (P : Store -> Prop) now t :
  log_blind P ->
  (forall st, P st ->
     forall orphans, orphanTxByPrev st !! hash t = Some orphans ->
       forall o i, o ∈ orphans -> preserves P (add now o (Num i))) ->
  (forall st, P st ->
     P (with_orphanTxByPrev (delete (hash t) (orphanTxByPrev st)) st)) ->
  preserves P
    (do byPrev <- gets orphanTxByPrev ;;
     match byPrev !! hash t with
     | Some orphans =>
         forEach (fun o i => add now o (Num i) ;;; ret tt) 0 orphans ;;;
         modify (fun st => with_orphanTxByPrev (delete (hash t) (orphanTxByPrev st)) st)
     | None => ret tt
     end ;;;
     emit (TxNotify t) ;;;
     do la <- gets liveAccounting ;;
     if la then
       forEach (fun i _ =>
                  modify (fun st =>
                            with_txIndexByAcc
                              (<[i := default [] (txIndexByAcc st !! i) ++ [hash t]]>
                                 (txIndexByAcc st)) st) ;;;
                  emit (TxNotifyAcc i t))
               0 (getAffectedAccounts t)
     else ret tt).
Proof.
  intros HP Hadd Hdel.
  apply preserves_gets_bind. intros st Hst.
  from_preserves; [|exact Hst].
  apply preserves_bind.
  - destruct (orphanTxByPrev st !! hash t) as [orphans|] eqn:E; [|apply preserves_ret].
    apply preserves_bind.
    + apply preserves_forEach. intros o i Ho.
      apply preserves_bind; [|intros _; apply preserves_ret].
      apply (Hadd st Hst orphans E o i Ho).
    + intros _. apply preserves_modify, Hdel.
  - intros _. apply preserves_bind; [apply preserves_emit, HP|intros _].
    apply preserves_bind; [apply preserves_gets|intros la].
    apply preserves_if; [|apply preserves_ret].
    apply preserves_forEach. intros a i _.
    apply preserves_bind; [|intros _; apply preserves_emit, HP].
    apply preserves_modify. intros s. apply HP.
Qed.

Lemma verifyCallback_Inv now t err st :
  Inv st -> hash t ∉ (hash <$> verifying st) -> ~ orphan st (hash t) ->
  Inv (fst (verifyCallback now t err st)).
Proof.
  intros HI Hv Ho. unfold verifyCallback. rewrite run_bind_gets.
  destruct (txIndex st !! hash t) as [[q|s]|] eqn:E; [|exact HI|exact HI].
  destruct err as [e|].
  - assert (Hdel : Inv (with_txIndex (delete (hash t) (txIndex st)) st)).
    { apply (Inv_change_at st (hash t)); auto.
      intros k Hk. now apply lookup_delete_ne. }
    assert (Hq : forall i s', Inv s' ->
              Inv (fst (forEach (fun cb (_ : nat) => invoke cb (Some e) (Some t)) i q s'))).
    { intros i s'. apply preserves_forEach_invoke. intros cb. apply invoke_Inv. }
    destruct e as [m|m|m|missing];
      try (rewrite run_bind_modify; apply Hq, Hdel).
    rewrite run_bind_assoc, run_bind_modify, run_bind_modify.
    apply Hq, Inv_orphanTxByPrev, Inv_orphanTxIndex_insert; auto.
    exists q. exact E.
  - rewrite run_bind_modify. from_preserves.
    + apply preserves_bind.
      * apply preserves_forEach_invoke. intros cb. apply invoke_Inv.
      * intros _. apply preserves_success_tail.
        -- apply Inv_log_blind.
        -- intros. apply add_Inv.
        -- intros s. apply Inv_orphanTxByPrev.
    + apply (Inv_change_at st (hash t)); auto.
      intros k Hk. cbn. now apply lookup_insert_ne.
Qed.

Lemma get_Inv h cb : preserves Inv (get h cb).
Proof.
  unfold get. apply preserves_gets_bind. intros st HI.
  destruct (txIndex st !! h) as [[q|t]|] eqn:E.
  - destruct (is_function cb); [|exact HI].
    rewrite run_bind_modify. apply Inv_insert_Queue, HI.
  - from_preserves; [|exact HI].
    apply preserves_bind; [|intros _; apply preserves_ret].
    apply preserves_if; [apply invoke_Inv|apply preserves_ret].
  - from_preserves; [|exact HI].
    apply preserves_bind; [|intros _; apply preserves_ret].
    apply preserves_if; [apply invoke_Inv|apply preserves_ret].
Qed.

Lemma step_Inv st op : Inv st -> Inv (step st op).
Proof.
  intros HI. destruct op as [now t cb|now h err|h|h cb|e]; cbn [step].
  - now apply add_Inv.
  - destruct (take_verifying h (verifying st)) as [[t rest]|] eqn:HT; [|exact HI].
    destruct (take_verifying_spec _ _ _ _ HT) as [<- _].
    destruct (Inv_take st t rest HI HT) as [HI' [Hv [Ho Hq]]].
    apply verifyCallback_Inv; auto.
  - now apply remove_Inv.
  - now apply get_Inv.
  - rewrite handleTxAdd_is_remove. now apply remove_Inv.
Qed.

Lemma run_Inv ops : forall st, Inv st -> Inv (run ops st).
Proof.
  induction ops as [|op ops IH]; intros st HI; [exact HI|].
  apply IH, step_Inv, HI.
Qed.

(** *** Hashes the store has not been handed *)

Lemma Fresh_new h la : Fresh h (new la).
Proof.
  split; [|split]; cbn.
  - apply lookup_empty.
  - intros t Ht. inversion Ht.
  - intros k l t Hk. rewrite lookup_empty in Hk. discriminate.
Qed.

Lemma Fresh_log_blind h : log_blind (Fresh h).
Proof. unfold log_blind. split; [|split]; intros x s HF; exact HF. Qed.

Lemma Fresh_orphanTxIndex h m st : Fresh h st -> Fresh h (with_orphanTxIndex m st).
Proof. intros HF. exact HF. Qed.

Lemma Fresh_txIndex h m st :
  Fresh h st -> m !! h = None -> Fresh h (with_txIndex m st).
Proof. intros (F1 & F2 & F3) Hm. split; [|split]; assumption. Qed.

Lemma Fresh_insert h k e st :
  Fresh h st -> k <> h -> Fresh h (with_txIndex (<[k := e]> (txIndex st)) st).
Proof.
  intros HF Hne. apply Fresh_txIndex; [exact HF|].
  rewrite lookup_insert_ne by exact Hne. apply HF.
Qed.

Lemma Fresh_delete h k st :
  Fresh h st -> Fresh h (with_txIndex (delete k (txIndex st)) st).
Proof.
  intros HF. apply Fresh_txIndex; [exact HF|].
  apply lookup_delete_None. right. apply HF.
Qed.

Lemma Fresh_known_ne h k st e :
  Fresh h st -> txIndex st !! k = Some e -> k <> h.
Proof. intros (F1 & _) Hk ->. congruence. Qed.

Lemma remove_Fresh h k : preserves (Fresh h) (remove k).
Proof.
  unfold remove. apply preserves_gets_bind. intros st HF.
  destruct (txIndex st !! k) as [[q|t]|] eqn:E.
  - apply Fresh_insert; [exact HF|]. apply (Fresh_known_ne h k st _ HF E).
  - rewrite run_bind_modify. from_preserves; [|apply Fresh_delete, HF].
    apply preserves_bind; [apply preserves_emit, Fresh_log_blind|intros _].
    apply preserves_bind; [apply preserves_gets|intros la].
    apply preserves_if; [|apply preserves_ret].
    apply (preserves_forEach_emit (Fresh h) (fun i => TxCancelAcc i t k)), Fresh_log_blind.
  - exact HF.
Qed.

Lemma invoke_Fresh h cb err t : preserves (Fresh h) (invoke cb err t).
Proof.
  destruct cb as [id|k| |n]; cbn [invoke].
  - apply preserves_modify. intros st. apply Fresh_log_blind.
  - destruct err; [apply preserves_ret|apply remove_Fresh].
  - apply preserves_throw.
  - apply preserves_throw.
Qed.

Lemma add_Fresh h now t cb : hash t <> h -> preserves (Fresh h) (add now t cb).
Proof.
  intros Hne st HF. destruct (txIndex st !! hash t) as [[q|s]|] eqn:E.
  - rewrite (add_queued_eq _ _ _ _ _ E). cbn.
    destruct (is_function cb); [now apply Fresh_insert|exact HF].
  - rewrite (add_accepted_eq _ _ _ _ _ E). clear E. revert st HF.
    apply preserves_bind; [|intros _; apply preserves_ret].
    apply preserves_if; [apply invoke_Fresh|apply preserves_ret].
  - rewrite (add_new_eq _ _ _ _ E).
    destruct (isCoinBase t);
      [clear E; revert st HF;
       apply preserves_bind; [apply invoke_Fresh|intros _; apply preserves_ret]|].
    destruct (negb (isStandard t));
      [clear E; revert st HF;
       apply preserves_bind; [apply invoke_Fresh|intros _; apply preserves_ret]|].
    cbn [fst].
    apply (Fresh_insert h (hash t) _ (with_verifying (verifying st ++ [stamp now t]) st));
      [|exact Hne].
    destruct HF as (F1 & F2 & F3). split; [|split]; cbn; try assumption.
    intros t' Ht'. apply elem_of_app in Ht' as [Ht'|Ht']; [now apply F2|].
    apply list_elem_of_singleton in Ht' as ->. exact Hne.
Qed.

Lemma Fresh_orphan_push h t missing st :
  hash t <> h -> Fresh h st ->
  Fresh h (with_orphanTxByPrev
             (<[missing := match orphanTxByPrev st !! missing with
                           | None => [t]
                           | Some l => l ++ [t]
                           end]> (orphanTxByPrev st)) st).
Proof.
  intros Hne (F1 & F2 & F3). split; [|split]; cbn; try assumption.
  intros k l t' Hk Ht'. destruct (decide (missing = k)) as [<-|Hk'].
  - rewrite lookup_insert_eq in Hk. injection Hk as <-.
    destruct (orphanTxByPrev st !! missing) as [l0|] eqn:E.
    + apply elem_of_app in Ht' as [Ht'|Ht']; [now apply (F3 missing l0)|].
      apply list_elem_of_singleton in Ht' as ->. exact Hne.
    + apply list_elem_of_singleton in Ht' as ->. exact Hne.
  - rewrite lookup_insert_ne in Hk by exact Hk'. now apply (F3 k l).
Qed.

Lemma Fresh_orphan_delete h k st :
  Fresh h st -> Fresh h (with_orphanTxByPrev (delete k (orphanTxByPrev st)) st).
Proof.
  intros (F1 & F2 & F3). split; [|split]; cbn; try assumption.
  intros k' l t Hk Ht. apply lookup_delete_Some in Hk as [_ Hk]. now apply (F3 k' l).
Qed.

Lemma verifyCallback_Fresh h now t err :
  hash t <> h -> preserves (Fresh h) (verifyCallback now t err).
Proof.
  intros Hne. unfold verifyCallback. apply preserves_gets_bind. intros st HF.
  destruct (txIndex st !! hash t) as [[q|s]|] eqn:E; [|exact HF|exact HF].
  from_preserves; [|exact HF]. destruct err as [e|].
  - apply preserves_bind.
    + destruct e as [m|m|m|missing];
        try (apply preserves_modify; intros s; apply Fresh_delete).
      apply preserves_bind.
      * apply preserves_modify. intros s. apply Fresh_orphanTxIndex.
      * intros _. apply preserves_modify. intros s. now apply Fresh_orphan_push.
    + intros _. apply preserves_forEach_invoke. intros cb. apply invoke_Fresh.
  - apply preserves_bind.
    + apply preserves_modify. intros s Hs. now apply Fresh_insert.
    + intros _. apply preserves_bind.
      * apply preserves_forEach_invoke. intros cb. apply invoke_Fresh.
      * intros _. apply preserves_success_tail.
        -- apply Fresh_log_blind.
        -- intros s Hs orphans Ho o i Hin. apply add_Fresh.
           destruct Hs as (_ & _ & F3). now apply (F3 (hash t) orphans).
        -- intros s. apply Fresh_orphan_delete.
Qed.

Lemma get_Fresh h k cb : preserves (Fresh h) (get k cb).
Proof.
  unfold get. apply preserves_gets_bind. intros st HF.
  destruct (txIndex st !! k) as [[q|t]|] eqn:E.
  - destruct (is_function cb); [|exact HF].
    rewrite run_bind_modify. apply Fresh_insert; [exact HF|].
    apply (Fresh_known_ne h k st _ HF E).
  - from_preserves; [|exact HF].
    apply preserves_bind; [|intros _; apply preserves_ret].
    apply preserves_if; [apply invoke_Fresh|apply preserves_ret].
  - from_preserves; [|exact HF].
    apply preserves_bind; [|intros _; apply preserves_ret].
    apply preserves_if; [apply invoke_Fresh|apply preserves_ret].
Qed.

Lemma step_Fresh h st op : ~ adds h op -> Fresh h st -> Fresh h (step st op).
Proof.
  intros Hop HF. destruct op as [now t cb|now k err|k|k cb|e]; cbn [step].
  - apply add_Fresh; [exact Hop|exact HF].
  - destruct (take_verifying k (verifying st)) as [[t rest]|] eqn:HT; [|exact HF].
    destruct (take_verifying_spec _ _ _ _ HT) as [_ [l1 [l2 [Hl ->]]]].
    destruct HF as (F1 & F2 & F3).
    apply verifyCallback_Fresh.
    + apply F2. rewrite Hl. apply elem_of_app. right. left.
    + split; [|split]; cbn; try assumption.
      intros t' Ht'. apply F2. rewrite Hl.
      apply elem_of_app in Ht' as [?|?]; apply elem_of_app;
        [left|right; right]; assumption.
  - now apply remove_Fresh.
  - now apply get_Fresh.
  - rewrite handleTxAdd_is_remove. now apply remove_Fresh.
Qed.

Lemma run_Fresh h ops : forall st,
  Forall (fun op => ~ adds h op) ops -> Fresh h st -> Fresh h (run ops st).
Proof.
  induction ops as [|op ops IH]; intros st Hops HF; [exact HF|].
  apply Forall_cons in Hops as [Hop Hops].
  apply IH; [exact Hops|]. now apply step_Fresh.
Qed.

(** *** Once an orphan, always an orphan *)

Ltac from_preserves_orphan h :=
  match goal with
  | |- orphan (fst (?m ?st)) h =>
      let H := fresh "Hpres" in
      assert (H : preserves (fun s => orphan s h) m); [|apply H]
  end.

Ltac same_orphans := let s := fresh "s" in let Hs := fresh "Hs" in intros s Hs; exact Hs.

Lemma orphan_log_blind h : log_blind (fun st => orphan st h).
Proof. unfold log_blind. split; [|split]; intros x s Hs; exact Hs. Qed.

Lemma remove_orphan h k : preserves (fun st => orphan st h) (remove k).
Proof.
  unfold remove. apply preserves_gets_bind. intros st Ho.
  destruct (txIndex st !! k) as [[q|t]|]; [exact Ho| |exact Ho].
  from_preserves_orphan h; [|exact Ho].
  apply preserves_bind; [apply preserves_modify; same_orphans|intros _].
  apply preserves_bind; [apply preserves_emit, orphan_log_blind|intros _].
  apply preserves_bind; [apply preserves_gets|intros la].
  apply preserves_if; [|apply preserves_ret].
  apply (preserves_forEach_emit _ (fun i => TxCancelAcc i t k)), orphan_log_blind.
Qed.

Lemma invoke_orphan h cb err t : preserves (fun st => orphan st h) (invoke cb err t).
Proof.
  destruct cb as [id|k| |n]; cbn [invoke].
  - apply preserves_modify. same_orphans.
  - destruct err; [apply preserves_ret|apply remove_orphan].
  - apply preserves_throw.
  - apply preserves_throw.
Qed.

Lemma add_orphan h now t cb : preserves (fun st => orphan st h) (add now t cb).
Proof.
  unfold add. apply preserves_gets_bind. intros st Ho.
  from_preserves_orphan h; [|exact Ho].
  destruct (txIndex st !! hash t) as [[q|s]|].
  - apply preserves_bind; [|intros _; apply preserves_ret].
    apply preserves_if; [apply preserves_modify; same_orphans|apply preserves_ret].
  - apply preserves_bind; [|intros _; apply preserves_ret].
    apply preserves_if; [apply invoke_orphan|apply preserves_ret].
  - apply preserves_bind; [|intros _; apply preserves_ret].
    apply preserves_try_catch; [|intros e; apply invoke_orphan].
    apply preserves_bind; [apply preserves_if; [apply preserves_throw|apply preserves_ret]|].
    intros _.
    apply preserves_bind; [apply preserves_if; [apply preserves_throw|apply preserves_ret]|].
    intros _. apply preserves_bind; [apply preserves_modify; same_orphans|].
    intros _. apply preserves_modify. same_orphans.
Qed.

Lemma orphan_insert h k t st :
  orphan st h -> orphan (with_orphanTxIndex (<[k := t]> (orphanTxIndex st)) st) h.
Proof.
  intros Ho. unfold orphan. cbn. destruct (decide (k = h)) as [->|Hne].
  - rewrite lookup_insert_eq. eauto.
  - now rewrite lookup_insert_ne.
Qed.

Lemma verifyCallback_orphan h now t err :
  preserves (fun st => orphan st h) (verifyCallback now t err).
Proof.
  unfold verifyCallback. apply preserves_gets_bind. intros st Ho.
  destruct (txIndex st !! hash t) as [[q|s]|]; [|exact Ho|exact Ho].
  from_preserves_orphan h; [|exact Ho]. destruct err as [e|].
  - apply preserves_bind.
    + destruct e as [m|m|m|missing]; try (apply preserves_modify; same_orphans).
      apply preserves_bind.
      * apply preserves_modify. intros s. apply orphan_insert.
      * intros _. apply preserves_modify. same_orphans.
    + intros _. apply preserves_forEach_invoke. intros cb. apply invoke_orphan.
  - apply preserves_bind; [apply preserves_modify; same_orphans|intros _].
    apply preserves_bind.
    + apply preserves_forEach_invoke. intros cb. apply invoke_orphan.
    + intros _. apply preserves_success_tail.
      * apply orphan_log_blind.
      * intros. apply add_orphan.
      * same_orphans.
Qed.

Lemma get_orphan h k cb : preserves (fun st => orphan st h) (get k cb).
Proof.
  unfold get. apply preserves_gets_bind. intros st Ho.
  from_preserves_orphan h; [|exact Ho].
  destruct (txIndex st !! k) as [[q|t]|];
    (apply preserves_bind; [|intros _; apply preserves_ret]).
  - apply preserves_if; [apply preserves_modify; same_orphans|apply preserves_ret].
  - apply preserves_if; [apply invoke_orphan|apply preserves_ret].
  - apply preserves_if; [apply invoke_orphan|apply preserves_ret].
Qed.

Lemma step_orphan h st op : orphan st h -> orphan (step st op) h.
Proof.
  intros Ho. destruct op as [now t cb|now k err|k|k cb|e]; cbn [step].
  - now apply (add_orphan h).
  - destruct (take_verifying k (verifying st)) as [[t rest]|]; [|exact Ho].
    now apply (verifyCallback_orphan h).
  - now apply (remove_orphan h).
  - now apply (get_orphan h).
  - rewrite handleTxAdd_is_remove. now apply (remove_orphan h).
Qed.

Lemma run_orphan h ops : forall st, orphan st h -> orphan (run ops st) h.
Proof.
  induction ops as [|op ops IH]; intros st Ho; [exact Ho|].
  apply IH, step_orphan, Ho.
Qed.

(** A transaction that became an orphan is never accepted, whatever the
    store is asked to do afterwards: its array of callbacks stays in
    [txIndex], so every later [add] of it is taken for a duplicate. *)
Lemma orphan_never_accepted la ops ops' h :
  orphan (run ops (new la)) h ->
  queued (run (ops ++ ops') (new la)) h /\ ~ accepted (run (ops ++ ops') (new la)) h.
Proof.
  intros Ho. unfold run in *. rewrite fold_left_app.
  pose proof (run_orphan h ops' _ Ho) as Ho'.
  pose proof (run_Inv ops' _ (run_Inv ops _ (Inv_new la))) as HI.
  destruct (inv_orphan _ HI h Ho') as [[q Hq] _].
  split; [exists q; exact Hq|]. intros [t Ht]. unfold run in *. congruence.
Qed.

(** *** The claims about the store *)

(** C6.  In every store that the operations can reach, [isKnown] answers
    [true] for a hash that is being verified, accepted or an orphan, and
    [false] for a hash that no [add] was ever called with. *)
Theorem isKnown_reachable (la : bool) (ops : list Op) (h : string) :
  let st := run ops (new la) in
  (queued st h \/ accepted st h \/ orphan st h -> isKnown st h = true)
  /\ (Forall (fun op => ~ adds h op) ops -> isKnown st h = false).
Proof.
  cbn zeta. split.
  - pose proof (run_Inv ops _ (Inv_new la)) as HI.
    intros [[q Hq]|[[t Ht]|Ho]]; unfold isKnown.
    + now rewrite Hq.
    + now rewrite Ht.
    + destruct (inv_orphan _ HI h Ho) as [[q Hq] _]. now rewrite Hq.
  - intros Hops. destruct (run_Fresh h ops _ Hops (Fresh_new h la)) as [F1 _].
    unfold isKnown. now rewrite F1.
Qed.

(** C8.  For a hash without an entry, a coinbase or non-standard
    transaction is turned down at once: the callback is called with the
    error, [add] returns [true], and the store is as before but for the
    record of that call; nothing is being verified and [isKnown] stays
    [false]. *)
Theorem add_rejected_at_once (st : Store) (now : nat) (t : Transaction) (id : nat) :
  txIndex st !! hash t = None ->
  isCoinBase t = true \/ isStandard t = false ->
  exists msg,
    add now t (UserFn id) st
    = (with_calls (calls st ++ [mkCall id (Some (ErrorObject msg)) None]) st, Normal true)
    /\ txIndex (fst (add now t (UserFn id) st)) = txIndex st
    /\ verifying (fst (add now t (UserFn id) st)) = verifying st
    /\ isKnown (fst (add now t (UserFn id) st)) (hash t) = false.
Proof.
  intros E Hbad. rewrite (add_new_eq _ _ _ _ E).
  assert (Hk : isKnown st (hash t) = false) by (unfold isKnown; now rewrite E).
  destruct (isCoinBase t) eqn:Hc.
  - eexists. repeat split. exact Hk.
  - destruct Hbad as [Hbad|Hbad]; [discriminate|]. rewrite Hbad. cbn [negb].
    eexists. repeat split. exact Hk.
Qed.

(** C10.  [remove] of a hash without an entry changes nothing and emits
    nothing: the store it leaves is the store it was given. *)
Theorem remove_unknown_noop (st : Store) (h : string) :
  txIndex st !! h = None -> remove h st = (st, Normal tt).
Proof. apply remove_unknown_eq. Qed.

(** *** What an [add] can launch, and what stays while a verification runs *)

Ltac from_preserves_with P :=
  match goal with
  | |- context [fst (?m ?st)] =>
      let H := fresh "Hpres" in
      assert (H : preserves P m); [|apply (H st)]
  end.

Lemma fst_bind_ret {A B} (m : M A) (b : B) st :
  fst (bind m (fun _ => ret b) st) = fst (m st).
Proof. unfold bind. destruct (m st) as [st1 [a|e]]; reflexivity. Qed.

Lemma snd_bind_ret {A B} (m : M A) (b : B) st a :
  snd (m st) = Normal a -> snd (bind m (fun _ => ret b) st) = Normal b.
Proof. unfold bind. destruct (m st) as [st1 [a'|e]]; [reflexivity|discriminate]. Qed.

(** [remove] and the call of a callback keep what only looks at the
    fields other than [txIndex] and the logs. *)
Lemma remove_frame (P : Store -> Prop) h :
  log_blind P -> (forall m s, P s -> P (with_txIndex m s)) -> preserves P (remove h).
Proof.
  intros Hlb Htx. unfold remove. apply preserves_gets_bind. intros st HP.
  destruct (txIndex st !! h) as [[q|t]|]; [apply Htx, HP| |exact HP].
  rewrite run_bind_modify. from_preserves; [|apply Htx, HP].
  apply preserves_bind; [apply preserves_emit, Hlb|intros _].
  apply preserves_bind; [apply preserves_gets|intros la].
  apply preserves_if; [|apply preserves_ret].
  apply (preserves_forEach_emit P (fun i => TxCancelAcc i t h)), Hlb.
Qed.

Lemma invoke_frame (P : Store -> Prop) cb err t :
  log_blind P -> (forall m s, P s -> P (with_txIndex m s)) ->
  preserves P (invoke cb err t).
Proof.
  intros Hlb Htx. destruct cb as [id|h| |n]; cbn [invoke].
  - apply preserves_modify. intros st. apply Hlb.
  - destruct err; [apply preserves_ret|now apply remove_frame].
  - apply preserves_throw.
  - apply preserves_throw.
Qed.

Lemma invoke_verifying cb err t st :
  verifying (fst (invoke cb err t st)) = verifying st.
Proof.
  apply (invoke_frame (fun s => verifying s = verifying st) cb err t);
    [split; [|split]; intros x s Hs; exact Hs|intros m s Hs; exact Hs|reflexivity].
Qed.

Lemma invoke_function_returns cb err t st :
  is_function cb = true -> snd (invoke cb err t st) = Normal tt.
Proof.
  destruct cb as [id|h| |n]; try discriminate; intros _; [reflexivity|].
  cbn [invoke]. destruct err; [reflexivity|apply remove_never_throws].
Qed.

(** An [add] either leaves the outstanding verifications as they are, or
    finds no entry and launches one, filing a fresh queue. *)
Lemma add_launch_cases st now t cb :
  verifying (fst (add now t cb st)) = verifying st
  \/ (txIndex st !! hash t = None
      /\ fst (add now t cb st)
         = with_txIndex (<[hash t := Queue [cb]]> (txIndex st))
                        (with_verifying (verifying st ++ [stamp now t]) st)).
Proof.
  destruct (txIndex st !! hash t) as [[q|s]|] eqn:E.
  - left. rewrite (add_queued_eq _ _ _ _ _ E). now destruct (is_function cb).
  - left. rewrite (add_accepted_eq _ _ _ _ _ E), fst_bind_ret.
    destruct (is_function cb); [apply invoke_verifying|reflexivity].
  - rewrite (add_new_eq _ _ _ _ E).
    destruct (isCoinBase t); [left; rewrite fst_bind_ret; apply invoke_verifying|].
    destruct (negb (isStandard t));
      [left; rewrite fst_bind_ret; apply invoke_verifying|].
    right. split; reflexivity.
Qed.

(** A queue stays a queue until its verification reports. *)
Lemma queued_insert_Queue st h k q :
  queued st h -> queued (with_txIndex (<[k := Queue q]> (txIndex st)) st) h.
Proof.
  intros [q' Hq]. unfold queued. cbn. destruct (decide (k = h)) as [->|Hne].
  - rewrite lookup_insert_eq. eauto.
  - rewrite lookup_insert_ne by exact Hne. eauto.
Qed.

Lemma queued_change_other st h k m' :
  queued st h -> k <> h -> (forall j, j <> k -> m' !! j = txIndex st !! j) ->
  queued (with_txIndex m' st) h.
Proof.
  intros [q Hq] Hne Hm. exists q. cbn. rewrite Hm; [exact Hq|congruence].
Qed.

Lemma queued_log_blind h : log_blind (fun st => queued st h).
Proof. unfold log_blind. split; [|split]; intros x s Hs; exact Hs. Qed.

Lemma remove_queued h k : preserves (fun st => queued st h) (remove k).
Proof.
  unfold remove. apply preserves_gets_bind. intros st Hq.
  destruct (txIndex st !! k) as [[q|t]|] eqn:E; [|rewrite run_bind_modify|exact Hq].
  - apply queued_insert_Queue, Hq.
  - from_preserves_with (fun s => queued s h).
    + apply preserves_bind; [apply preserves_emit, queued_log_blind|intros _].
      apply preserves_bind; [apply preserves_gets|intros la].
      apply preserves_if; [|apply preserves_ret].
      apply (preserves_forEach_emit _ (fun i => TxCancelAcc i t k)), queued_log_blind.
    + apply (queued_change_other st h k); [exact Hq| |].
      * intros ->. destruct Hq as [q Hq]. congruence.
      * intros j Hj. now apply lookup_delete_ne.
Qed.

Lemma invoke_queued h cb err t : preserves (fun st => queued st h) (invoke cb err t).
Proof.
  destruct cb as [id|k| |n]; cbn [invoke].
  - apply preserves_modify. intros s Hs. exact Hs.
  - destruct err; [apply preserves_ret|apply remove_queued].
  - apply preserves_throw.
  - apply preserves_throw.
Qed.

Lemma add_queued h now t cb : preserves (fun st => queued st h) (add now t cb).
Proof.
  intros st Hq. destruct (txIndex st !! hash t) as [[q|s]|] eqn:E.
  - rewrite (add_queued_eq _ _ _ _ _ E). cbn [fst].
    destruct (is_function cb); [apply queued_insert_Queue, Hq|exact Hq].
  - rewrite (add_accepted_eq _ _ _ _ _ E), fst_bind_ret.
    destruct (is_function cb); [now apply invoke_queued|exact Hq].
  - rewrite (add_new_eq _ _ _ _ E).
    destruct (isCoinBase t); [rewrite fst_bind_ret; now apply invoke_queued|].
    destruct (negb (isStandard t)); [rewrite fst_bind_ret; now apply invoke_queued|].
    cbn [fst].
    apply (queued_insert_Queue (with_verifying (verifying st ++ [stamp now t]) st)).
    exact Hq.
Qed.

Lemma verifyCallback_queued h now t err :
  hash t <> h -> preserves (fun st => queued st h) (verifyCallback now t err).
Proof.
  intros Hne. unfold verifyCallback. apply preserves_gets_bind. intros st Hq.
  destruct (txIndex st !! hash t) as [[q|s]|]; [|exact Hq|exact Hq].
  from_preserves_with (fun s => queued s h); [|exact Hq]. destruct err as [e|].
  - apply preserves_bind.
    + destruct e as [m|m|m|missing];
        [apply preserves_modify; intros s Hs;
         apply (queued_change_other s h (hash t)); [exact Hs|exact Hne|];
         intros j Hj; now apply lookup_delete_ne ..|].
      apply preserves_bind; [apply preserves_modify; intros s Hs; exact Hs|].
      intros _. apply preserves_modify. intros s Hs. exact Hs.
    + intros _. apply preserves_forEach_invoke. intros cb. apply invoke_queued.
  - apply preserves_bind.
    + apply preserves_modify. intros s Hs.
      apply (queued_change_other s h (hash t)); [exact Hs|exact Hne|].
      intros j Hj. now apply lookup_insert_ne.
    + intros _. apply preserves_bind.
      * apply preserves_forEach_invoke. intros cb. apply invoke_queued.
      * intros _. apply preserves_success_tail.
        -- apply queued_log_blind.
        -- intros. apply add_queued.
        -- intros s Hs. exact Hs.
Qed.

Lemma get_queued h k cb : preserves (fun st => queued st h) (get k cb).
Proof.
  unfold get. apply preserves_gets_bind. intros st Hq.
  destruct (txIndex st !! k) as [[q|t]|].
  - destruct (is_function cb); [|exact Hq].
    rewrite run_bind_modify. apply queued_insert_Queue, Hq.
  - rewrite fst_bind_ret. destruct (is_function cb); [now apply invoke_queued|exact Hq].
  - rewrite fst_bind_ret. destruct (is_function cb); [now apply invoke_queued|exact Hq].
Qed.

Lemma step_queued h st op : ~ reports h op -> queued st h -> queued (step st op) h.
Proof.
  intros Hop Hq. destruct op as [now t cb|now k err|k|k cb|e]; cbn [step].
  - now apply (add_queued h).
  - destruct (take_verifying k (verifying st)) as [[t rest]|] eqn:HT; [|exact Hq].
    destruct (take_verifying_spec _ _ _ _ HT) as [Hk _].
    apply (verifyCallback_queued h); [|exact Hq]. intros E. apply Hop. cbn. congruence.
  - now apply (remove_queued h).
  - now apply (get_queued h).
  - rewrite handleTxAdd_is_remove. now apply (remove_queued h).
Qed.

Lemma run_queued h ops : forall st,
  Forall (fun op => ~ reports h op) ops -> queued st h -> queued (run ops st) h.
Proof.
  induction ops as [|op ops IH]; intros st Hops Hq; [exact Hq|].
  apply Forall_cons in Hops as [Hop Hops].
  apply IH; [exact Hops|]. now apply step_queued.
Qed.

(** A verification stays outstanding until it reports. *)
Lemma waiting_log_blind t0 : log_blind (fun st => t0 ∈ verifying st).
Proof. unfold log_blind. split; [|split]; intros x s Hs; exact Hs. Qed.

Lemma add_waiting t0 now t cb : preserves (fun st => t0 ∈ verifying st) (add now t cb).
Proof.
  intros st Hin. destruct (add_launch_cases st now t cb) as [->|[_ ->]]; [exact Hin|].
  cbn. apply elem_of_app. now left.
Qed.

Lemma invoke_waiting t0 cb err t :
  preserves (fun st => t0 ∈ verifying st) (invoke cb err t).
Proof.
  apply invoke_frame; [apply waiting_log_blind|intros m s Hs; exact Hs].
Qed.

Lemma verifyCallback_waiting t0 now t err :
  preserves (fun st => t0 ∈ verifying st) (verifyCallback now t err).
Proof.
  unfold verifyCallback. apply preserves_gets_bind. intros st Hin.
  destruct (txIndex st !! hash t) as [[q|s]|]; [|exact Hin|exact Hin].
  from_preserves_with (fun s => t0 ∈ verifying s); [|exact Hin]. destruct err as [e|].
  - apply preserves_bind.
    + destruct e as [m|m|m|missing];
        [apply preserves_modify; intros s Hs; exact Hs ..|].
      apply preserves_bind; [apply preserves_modify; intros s Hs; exact Hs|].
      intros _. apply preserves_modify. intros s Hs. exact Hs.
    + intros _. apply preserves_forEach_invoke. intros cb. apply invoke_waiting.
  - apply preserves_bind; [apply preserves_modify; intros s Hs; exact Hs|intros _].
    apply preserves_bind.
    + apply preserves_forEach_invoke. intros cb. apply invoke_waiting.
    + intros _. apply preserves_success_tail.
      * apply waiting_log_blind.
      * intros. apply add_waiting.
      * intros s Hs. exact Hs.
Qed.

Lemma step_waiting t0 st op :
  ~ reports (hash t0) op -> t0 ∈ verifying st -> t0 ∈ verifying (step st op).
Proof.
  intros Hop Hin. destruct op as [now t cb|now k err|k|k cb|e]; cbn [step].
  - now apply (add_waiting t0).
  - destruct (take_verifying k (verifying st)) as [[t rest]|] eqn:HT; [|exact Hin].
    destruct (take_verifying_spec _ _ _ _ HT) as [Hk [l1 [l2 [Hl ->]]]].
    apply (verifyCallback_waiting t0). cbn. rewrite Hl in Hin.
    apply elem_of_app in Hin as [Hin|Hin]; apply elem_of_app; [now left|right].
    apply elem_of_cons in Hin as [->|Hin]; [|exact Hin].
    exfalso. apply Hop. cbn. congruence.
  - now apply (remove_frame (fun s => t0 ∈ verifying s));
      [apply waiting_log_blind|intros m s Hs; exact Hs|].
  - unfold get. rewrite run_bind_gets.
    destruct (txIndex st !! k) as [[q|t]|].
    + destruct (is_function cb); exact Hin.
    + rewrite fst_bind_ret.
      destruct (is_function cb); [now apply (invoke_waiting t0)|exact Hin].
    + rewrite fst_bind_ret.
      destruct (is_function cb); [now apply (invoke_waiting t0)|exact Hin].
  - rewrite handleTxAdd_is_remove.
    now apply (remove_frame (fun s => t0 ∈ verifying s));
      [apply waiting_log_blind|intros m s Hs; exact Hs|].
Qed.

Lemma run_waiting t0 ops : forall st,
  Forall (fun op => ~ reports (hash t0) op) ops ->
  t0 ∈ verifying st -> t0 ∈ verifying (run ops st).
Proof.
  induction ops as [|op ops IH]; intros st Hops Hin; [exact Hin|].
  apply Forall_cons in Hops as [Hop Hops].
  apply IH; [exact Hops|]. now apply step_waiting.
Qed.

(** Accepted transactions sit under their own hash. *)
Lemma keyed_log_blind : log_blind keyed.
Proof. unfold log_blind. split; [|split]; intros x s Hs; exact Hs. Qed.

Lemma keyed_insert_Queue st k q :
  keyed st -> keyed (with_txIndex (<[k := Queue q]> (txIndex st)) st).
Proof.
  intros Hk h s. cbn. destruct (decide (k = h)) as [->|Hne].
  - rewrite lookup_insert_eq. discriminate.
  - rewrite lookup_insert_ne by exact Hne. apply Hk.
Qed.

Lemma keyed_delete st k : keyed st -> keyed (with_txIndex (delete k (txIndex st)) st).
Proof.
  intros Hk h s. cbn. intros H. apply lookup_delete_Some in H as [_ H]. now apply Hk.
Qed.

Lemma keyed_insert_Verified st t :
  keyed st -> keyed (with_txIndex (<[hash t := Verified t]> (txIndex st)) st).
Proof.
  intros Hk h s. cbn. destruct (decide (hash t = h)) as [<-|Hne].
  - rewrite lookup_insert_eq. now intros [= <-].
  - rewrite lookup_insert_ne by exact Hne. apply Hk.
Qed.

Lemma remove_keyed k : preserves keyed (remove k).
Proof.
  unfold remove. apply preserves_gets_bind. intros st Hk.
  destruct (txIndex st !! k) as [[q|t]|]; [apply keyed_insert_Queue, Hk| |exact Hk].
  rewrite run_bind_modify. from_preserves; [|apply keyed_delete, Hk].
  apply preserves_bind; [apply preserves_emit, keyed_log_blind|intros _].
  apply preserves_bind; [apply preserves_gets|intros la].
  apply preserves_if; [|apply preserves_ret].
  apply (preserves_forEach_emit keyed (fun i => TxCancelAcc i t k)), keyed_log_blind.
Qed.

Lemma invoke_keyed cb err t : preserves keyed (invoke cb err t).
Proof.
  destruct cb as [id|k| |n]; cbn [invoke].
  - apply preserves_modify. intros s Hs. exact Hs.
  - destruct err; [apply preserves_ret|apply remove_keyed].
  - apply preserves_throw.
  - apply preserves_throw.
Qed.

Lemma add_keyed now t cb : preserves keyed (add now t cb).
Proof.
  intros st Hk. destruct (txIndex st !! hash t) as [[q|s]|] eqn:E.
  - rewrite (add_queued_eq _ _ _ _ _ E). cbn [fst].
    destruct (is_function cb); [apply keyed_insert_Queue, Hk|exact Hk].
  - rewrite (add_accepted_eq _ _ _ _ _ E), fst_bind_ret.
    destruct (is_function cb); [now apply invoke_keyed|exact Hk].
  - rewrite (add_new_eq _ _ _ _ E).
    destruct (isCoinBase t); [rewrite fst_bind_ret; now apply invoke_keyed|].
    destruct (negb (isStandard t)); [rewrite fst_bind_ret; now apply invoke_keyed|].
    cbn [fst].
    apply (keyed_insert_Queue (with_verifying (verifying st ++ [stamp now t]) st)).
    exact Hk.
Qed.

Lemma verifyCallback_keyed now t err : preserves keyed (verifyCallback now t err).
Proof.
  unfold verifyCallback. apply preserves_gets_bind. intros st Hk.
  destruct (txIndex st !! hash t) as [[q|s]|]; [|exact Hk|exact Hk].
  from_preserves; [|exact Hk]. destruct err as [e|].
  - apply preserves_bind.
    + destruct e as [m|m|m|missing];
        [apply preserves_modify; intros s; apply keyed_delete ..|].
      apply preserves_bind; [apply preserves_modify; intros s Hs; exact Hs|].
      intros _. apply preserves_modify. intros s Hs. exact Hs.
    + intros _. apply preserves_forEach_invoke. intros cb. apply invoke_keyed.
  - apply preserves_bind;
      [apply preserves_modify; intros s; apply keyed_insert_Verified|intros _].
    apply preserves_bind.
    + apply preserves_forEach_invoke. intros cb. apply invoke_keyed.
    + intros _. apply preserves_success_tail.
      * apply keyed_log_blind.
      * intros. apply add_keyed.
      * intros s Hs. exact Hs.
Qed.

Lemma get_keyed k cb : preserves keyed (get k cb).
Proof.
  unfold get. apply preserves_gets_bind. intros st Hk.
  destruct (txIndex st !! k) as [[q|t]|].
  - destruct (is_function cb); [|exact Hk].
    rewrite run_bind_modify. apply keyed_insert_Queue, Hk.
  - rewrite fst_bind_ret. destruct (is_function cb); [now apply invoke_keyed|exact Hk].
  - rewrite fst_bind_ret. destruct (is_function cb); [now apply invoke_keyed|exact Hk].
Qed.

Lemma run_keyed ops : forall st, keyed st -> keyed (run ops st).
Proof.
  induction ops as [|op ops IH]; intros st Hk; [exact Hk|].
  apply IH. destruct op as [now t cb|now k err|k|k cb|e]; cbn [step].
  - now apply add_keyed.
  - destruct (take_verifying k (verifying st)) as [[t rest]|]; [|exact Hk].
    now apply verifyCallback_keyed.
  - now apply remove_keyed.
  - now apply get_keyed.
  - rewrite handleTxAdd_is_remove. now apply remove_keyed.
Qed.

Lemma keyed_new la : keyed (new la).
Proof. intros h s H. cbn in H. rewrite lookup_empty in H. discriminate. Qed.

(** C4.  [add] on a hash that is being verified puts the callback at the
    end of the entry's waiting queue, launches no verification and
    returns [false].  [add] on an accepted hash calls the callback at
    once with [(null, tx)], launches no verification and returns
    [false]; in a store the operations can reach, the entry found is the
    transaction with the hash of [tx], the stored transaction.  Hence
    two [add] calls with one hash share one verification: two calls in a
    row launch at most one between them, and when the first call
    launched a verification, a second call made before that
    verification reports, whatever the store was asked to do in
    between, joins the queue of the first, returns [false] and leaves
    the outstanding verifications, the first one among them, as they
    were. *)
Theorem add_known_hash (st : Store) (now : nat) (t : Transaction) (id : nat) :
  (forall q, txIndex st !! hash t = Some (Queue q) ->
     add now t (UserFn id) st
     = (with_txIndex (<[hash t := Queue (q ++ [UserFn id])]> (txIndex st)) st,
        Normal false)
     /\ verifying (fst (add now t (UserFn id) st)) = verifying st)
  /\ (forall stored, txIndex st !! hash t = Some (Verified stored) ->
      add now t (UserFn id) st
      = (with_calls (calls st ++ [mkCall id None (Some t)]) st, Normal false)
      /\ verifying (fst (add now t (UserFn id) st)) = verifying st
      /\ (forall la ops, st = run ops (new la) -> hash stored = hash t))
  /\ (forall now' t' id',
       hash t' = hash t ->
       (length (verifying (fst (add now' t' (UserFn id')
                                    (fst (add now t (UserFn id) st)))))
        <= S (length (verifying st)))%nat)
  /\ (forall now' t' id',
       txIndex st !! hash t = None -> isCoinBase t = false -> isStandard t = true ->
       hash t' = hash t ->
       let st1 := fst (add now t (UserFn id) st) in
       let r2 := add now' t' (UserFn id') st1 in
       verifying st1 = verifying st ++ [stamp now t]
       /\ verifying (fst r2) = verifying st ++ [stamp now t]
       /\ txIndex (fst r2) !! hash t = Some (Queue [UserFn id; UserFn id'])
       /\ snd r2 = Normal false)
  /\ (forall ops now' t' id',
       txIndex st !! hash t = None -> isCoinBase t = false -> isStandard t = true ->
       hash t' = hash t ->
       Forall (fun op => ~ reports (hash t) op) ops ->
       let st1 := run ops (fst (add now t (UserFn id) st)) in
       stamp now t ∈ verifying st1
       /\ (exists q, txIndex st1 !! hash t = Some (Queue q)
                     /\ txIndex (fst (add now' t' (UserFn id') st1)) !! hash t
                        = Some (Queue (q ++ [UserFn id'])))
       /\ snd (add now' t' (UserFn id') st1) = Normal false
       /\ verifying (fst (add now' t' (UserFn id') st1)) = verifying st1).
Proof.
  split; [|split; [|split; [|split]]].
  - intros q E. rewrite (add_queued_eq _ _ _ _ _ E). split; reflexivity.
  - intros stored E. rewrite (add_accepted_eq _ _ _ _ _ E).
    split; [reflexivity|]. split; [reflexivity|].
    intros la ops ->. apply (run_keyed ops _ (keyed_new la) _ _ E).
  - intros now' t' id' Hh.
    destruct (add_launch_cases st now t (UserFn id)) as [H1|[E1 H1]].
    + destruct (add_launch_cases (fst (add now t (UserFn id) st)) now' t' (UserFn id'))
        as [H2|[_ H2]]; rewrite H2.
      * rewrite H1. lia.
      * cbn [verifying with_txIndex with_verifying].
        rewrite H1, length_app. cbn. lia.
    + rewrite H1. rewrite (add_queued_eq _ _ _ _ [UserFn id]).
      * cbn. rewrite length_app. cbn. lia.
      * cbn. rewrite Hh. apply lookup_insert_eq.
  - intros now' t' id' E Hc Hs Hh. cbn zeta.
    rewrite (add_new_eq _ _ _ _ E), Hc, Hs. cbn [negb fst].
    split; [reflexivity|].
    rewrite (add_queued_eq _ _ _ _ [UserFn id]).
    + cbn. rewrite Hh, lookup_insert_eq. repeat split.
    + cbn. rewrite Hh. apply lookup_insert_eq.
  - intros ops now' t' id' E Hc Hs Hh Hops. cbn zeta.
    rewrite (add_new_eq _ _ _ _ E), Hc, Hs. cbn [negb fst].
    set (st0 := with_txIndex (<[hash t := Queue [UserFn id]]> (txIndex st))
                             (with_verifying (verifying st ++ [stamp now t]) st)).
    assert (Hq0 : queued st0 (hash t)).
    { exists [UserFn id]. cbn. apply lookup_insert_eq. }
    assert (Hw0 : stamp now t ∈ verifying st0).
    { cbn. apply elem_of_app. right. left. }
    destruct (run_queued (hash t) ops st0 Hops Hq0) as [q Hq].
    split; [apply (run_waiting (stamp now t) ops st0 Hops Hw0)|].
    assert (Hq' : txIndex (run ops st0) !! hash t' = Some (Queue q)) by now rewrite Hh.
    rewrite (add_queued_eq _ _ _ _ _ Hq'). cbn [fst snd is_function].
    split; [|split; reflexivity].
    exists q. split; [exact Hq|]. cbn. rewrite Hh. apply lookup_insert_eq.
Qed.

(** C2.  The child is filed as an orphan of the parent, the parent is
    then added and verifies: the parent is accepted and announced, but
    the child is not fed through verification again.  Its array of
    callbacks is still in [txIndex], [add] takes it for a transaction
    being verified and returns; no verification of the child is
    outstanding, it is not accepted, and the only [txNotify] is the
    parent's. *)
Theorem orphan_not_promoted :
  let st := run [OpAdd 1 Samples.txC (UserFn 0);
                 OpVerified 2 (hash Samples.txC)
                            (Some (MissingSourceError (hash Samples.txP)));
                 OpAdd 3 Samples.txP (UserFn 1);
                 OpVerified 4 (hash Samples.txP) None] (new false) in
  txIndex st !! hash Samples.txP = Some (Verified (stamp 3 Samples.txP))
  /\ txIndex st !! hash Samples.txC = Some (Queue [UserFn 0])
  /\ orphanTxIndex st !! hash Samples.txC = Some (stamp 1 Samples.txC)
  /\ verifying st = []
  /\ emitted st = [TxNotify (stamp 3 Samples.txP)]
  /\ calls st = [mkCall 0 (Some (MissingSourceError (hash Samples.txP)))
                          (Some (stamp 1 Samples.txC));
                 mkCall 1 None (Some (stamp 3 Samples.txP))].
Proof. repeat split; vm_compute; reflexivity. Qed.

(** C3.  With [txB] accepted in the pool, the confirmation of [txA],
    which spends the same outpoint, leaves [txB] in the pool and emits
    no [txCancel]. *)
Theorem handleTxAdd_leaves_conflict :
  let st := run [OpAdd 1 Samples.txB (UserFn 0);
                 OpVerified 2 (hash Samples.txB) None] (new false) in
  let st' := fst (handleTxAdd (mkTxAddEvent Samples.txA) st) in
  ins Samples.txA = ins Samples.txB
  /\ isCoinBase Samples.txA = false
  /\ txIndex st !! hash Samples.txB = Some (Verified (stamp 1 Samples.txB))
  /\ txIndex st' !! hash Samples.txB = Some (Verified (stamp 1 Samples.txB))
  /\ emitted st' = [TxNotify (stamp 1 Samples.txB)]
  /\ st' = st.
Proof. repeat split; vm_compute; reflexivity. Qed.

(** The transaction that is confirmed does leave the pool, with its
    [txCancel]. *)
Lemma handleTxAdd_removes_confirmed :
  let st := run [OpAdd 1 Samples.txA (UserFn 0);
                 OpVerified 2 (hash Samples.txA) None] (new false) in
  let st' := fst (handleTxAdd (mkTxAddEvent Samples.txA) st) in
  txIndex st' !! hash Samples.txA = None
  /\ emitted st' = [TxNotify (stamp 1 Samples.txA);
                    TxCancel (stamp 1 Samples.txA) (hash Samples.txA)].
Proof. repeat split; vm_compute; reflexivity. Qed.

(** *** The theorems at work on concrete stores *)

Lemma isKnown_reachable_witness :
  let ops := [OpAdd 1 Samples.txC (UserFn 0);
              OpVerified 2 (hash Samples.txC)
                         (Some (MissingSourceError (hash Samples.txP)));
              OpAdd 3 Samples.txA (UserFn 1);
              OpVerified 4 (hash Samples.txA) None;
              OpAdd 5 Samples.txB (UserFn 2)] in
  let st := run ops (new true) in
  isKnown st (hash Samples.txB) = true
  /\ isKnown st (hash Samples.txA) = true
  /\ isKnown st (hash Samples.txC) = true
  /\ isKnown st (hash Samples.txP) = false.
Proof.
  cbn zeta. split; [|split; [|split]].
  - apply (isKnown_reachable true). left.
    exists [UserFn 2]. vm_compute. reflexivity.
  - apply (isKnown_reachable true). right. left.
    exists (stamp 3 Samples.txA). vm_compute. reflexivity.
  - apply (isKnown_reachable true). right. right.
    exists (stamp 1 Samples.txC). vm_compute. reflexivity.
  - apply (isKnown_reachable true).
    repeat constructor; cbn; intros H; first [discriminate H|contradiction].
Defined.

Lemma add_rejected_at_once_witness :
  exists msg,
    add 7 Samples.txCoinbase (UserFn 4) (new false)
    = (with_calls [mkCall 4 (Some (ErrorObject msg)) None] (new false), Normal true)
    /\ txIndex (fst (add 7 Samples.txCoinbase (UserFn 4) (new false))) = txIndex (new false)
    /\ verifying (fst (add 7 Samples.txCoinbase (UserFn 4) (new false))) = verifying (new false)
    /\ isKnown (fst (add 7 Samples.txCoinbase (UserFn 4) (new false)))
               (hash Samples.txCoinbase) = false.
Proof.
  apply (add_rejected_at_once (new false) 7 Samples.txCoinbase 4).
  - vm_compute. reflexivity.
  - left. reflexivity.
Defined.

Lemma remove_unknown_noop_witness :
  let st := run [OpAdd 1 Samples.txA (UserFn 0)] (new true) in
  remove (hash Samples.txB) st = (st, Normal tt).
Proof.
  cbn zeta. apply remove_unknown_noop. vm_compute. reflexivity.
Defined.

Lemma add_known_hash_witness :
  let st := new false in
  let st1 := fst (add 1 Samples.txA (UserFn 0) st) in
  let r2 := add 2 Samples.txA (UserFn 1) st1 in
  let st3 := run [OpAdd 1 Samples.txA (UserFn 0);
                  OpVerified 3 (hash Samples.txA) None] (new false) in
  let st4 := run [OpAdd 2 Samples.txB (UserFn 7); OpRemove (hash Samples.txA);
                  OpVerified 3 (hash Samples.txB) None] st1 in
  (verifying st1 = [stamp 1 Samples.txA]
   /\ verifying (fst r2) = [stamp 1 Samples.txA]
   /\ txIndex (fst r2) !! hash Samples.txA = Some (Queue [UserFn 0; UserFn 1])
   /\ snd r2 = Normal false)
  /\ (add 2 Samples.txA (UserFn 1) st1
      = (with_txIndex (<[hash Samples.txA := Queue ([UserFn 0] ++ [UserFn 1])]>
                         (txIndex st1)) st1, Normal false)
      /\ verifying (fst (add 2 Samples.txA (UserFn 1) st1)) = verifying st1)
  /\ (add 4 Samples.txA (UserFn 2) st3
      = (with_calls (calls st3 ++ [mkCall 2 None (Some Samples.txA)]) st3, Normal false)
      /\ verifying (fst (add 4 Samples.txA (UserFn 2) st3)) = verifying st3
      /\ hash (stamp 1 Samples.txA) = hash Samples.txA)
  /\ (stamp 1 Samples.txA ∈ verifying st4
      /\ snd (add 5 Samples.txA (UserFn 3) st4) = Normal false
      /\ verifying (fst (add 5 Samples.txA (UserFn 3) st4)) = verifying st4).
Proof.
  cbn zeta. split; [|split; [|split]].
  - destruct (add_known_hash (new false) 1 Samples.txA 0) as (_ & _ & _ & H & _).
    apply (H 2 Samples.txA 1); reflexivity.
  - destruct (add_known_hash (fst (add 1 Samples.txA (UserFn 0) (new false)))
                             2 Samples.txA 1) as (H & _).
    apply (H [UserFn 0]). vm_compute. reflexivity.
  - match goal with
    | |- add _ _ _ ?s = _ /\ _ =>
        destruct (add_known_hash s 4 Samples.txA 2) as (_ & H & _)
    end.
    destruct (H (stamp 1 Samples.txA)) as (H1 & H2 & H3);
      [vm_compute; reflexivity|].
    split; [exact H1|]. split; [exact H2|].
    exact (H3 false _ eq_refl).
  - destruct (add_known_hash (new false) 1 Samples.txA 0) as (_ & _ & _ & _ & H).
    destruct (H [OpAdd 2 Samples.txB (UserFn 7); OpRemove (hash Samples.txA);
                 OpVerified 3 (hash Samples.txB) None] 5 Samples.txA 3)
      as (H1 & _ & H3 & H4); try reflexivity.
    + repeat constructor; cbn; intros E; first [discriminate E|contradiction].
    + split; [exact H1|]. split; [exact H3|exact H4].
Defined.

End StoreFacts.

(** ** More on the block schema *)

Module BlockMore.
Import BlockSchema.

Lemma byte_of_N_mod z :
  Byte.to_N (match Byte.of_N (z mod 256) with Some b => b | None => x00 end)
  = (z mod 256)%N.
Proof.
  destruct (Byte.of_N (z mod 256)) as [b|] eqn:E.
  - now apply Byte.to_of_N.
  - apply Byte.of_N_None_iff in E.
    pose proof (N.mod_upper_bound z 256). lia.
Qed.

(** Decoding what [be_bytes] wrote gives back the low [n] bytes. *)
Lemma be_int_be_bytes n : forall z,
  be_int (be_bytes n z) = (z mod 256 ^ N.of_nat n)%N.
Proof.
  induction n as [|n IH]; intros z.
  - cbn. now rewrite N.mod_1_r.
  - cbn [be_bytes]. rewrite be_int_snoc, IH, byte_of_N_mod.
    rewrite Nat2N.inj_succ, N.pow_succ_r'.
    rewrite (N.Div0.mod_mul_r z 256 (256 ^ N.of_nat n)). lia.
Qed.

Lemma bigint_byte_length_enough n :
  (n < 256 ^ N.of_nat (bigint_byte_length n))%N.
Proof.
  destruct n as [|p]; [cbn; lia|].
  unfold bigint_byte_length. set (n := N.pos p).
  assert (Hn : (0 < n)%N) by (unfold n; lia).
  rewrite Nat2N.inj_succ, N2Nat.id.
  change 256%N with (2 ^ 8)%N. rewrite <- N.pow_mul_r.
  destruct (N.log2_spec n Hn) as [_ Hup].
  eapply N.lt_le_trans; [exact Hup|].
  apply N.pow_le_mono_r; [lia|].
  pose proof (N.mod_upper_bound (N.log2 n) 8).
  pose proof (N.div_mod (N.log2 n) 8). lia.
Qed.

(** X9.  A chain work handed to [setChainWork] as a bigint is read back
    by [getChainWork] as the same number; handed over as a Buffer it is
    read back as the number the buffer spells most significant byte first. *)
Theorem setChainWork_getChainWork (B : Block) (n : N) (b : Buffer) :
  getChainWork (setChainWork B (WorkBigInt n)) = Normal n
  /\ getChainWork (setChainWork B (WorkBuffer b)) = Normal (be_int b).
Proof.
  split; [|reflexivity].
  unfold getChainWork, setChainWork, bigint_toBuffer. cbn [chainWork set_chainWork].
  rewrite be_int_be_bytes, N.mod_small by apply bigint_byte_length_enough.
  reflexivity.
Qed.

Lemma moreWorkThan_numeric A B a b :
  chainWork A = Some a -> chainWork B = Some b ->
  moreWorkThan A B = Normal (be_int b <? be_int a)%N.
Proof.
  intros Ha Hb. unfold moreWorkThan, getChainWork. rewrite Ha, Hb. cbn [cbind].
  f_equal. destruct (N.compare_spec (be_int a) (be_int b)) as [E|L|G]; cbn.
  - symmetry. apply N.ltb_ge. lia.
  - symmetry. apply N.ltb_ge. lia.
  - symmetry. apply N.ltb_lt. lia.
Qed.

(** X10.  On blocks whose chain work is set, [moreWorkThan] is the strict
    order of the chain-work numbers: no block has more work than itself
    (so a tie never displaces the incumbent), it is asymmetric and
    transitive. *)
Theorem moreWorkThan_strict_order (A B C : Block) (a b c : Buffer) :
  chainWork A = Some a -> chainWork B = Some b -> chainWork C = Some c ->
  (moreWorkThan A B = Normal true <-> (be_int b < be_int a)%N)
  /\ moreWorkThan A A = Normal false
  /\ (moreWorkThan A B = Normal true -> moreWorkThan B A = Normal false)
  /\ (moreWorkThan A B = Normal true -> moreWorkThan B C = Normal true ->
      moreWorkThan A C = Normal true).
Proof.
  intros Ha Hb Hc.
  rewrite (moreWorkThan_numeric A B a b Ha Hb), (moreWorkThan_numeric A A a a Ha Ha),
    (moreWorkThan_numeric B A b a Hb Ha), (moreWorkThan_numeric B C b c Hb Hc),
    (moreWorkThan_numeric A C a c Ha Hc).
  assert (Hiff : forall x y : N, Normal (x <? y)%N = Normal true <-> (x < y)%N).
  { intros x y. rewrite <- N.ltb_lt. split; [now intros [= ->]|now intros ->]. }
  split; [apply Hiff|]. split; [now rewrite N.ltb_irrefl|]. split.
  - intros H. apply Hiff in H. f_equal. apply N.ltb_ge. lia.
  - intros H1 H2. apply Hiff in H1. apply Hiff in H2. apply Hiff. lia.
Qed.

Lemma moreWorkThan_strict_order_witness :
  let A := setChainWork Samples.genesis (WorkBigInt 4295032833) in
  let B := setChainWork Samples.genesis (WorkBuffer [x00; xff; xff]) in
  moreWorkThan A B = Normal true /\ moreWorkThan B A = Normal false.
Proof.
  cbn zeta.
  destruct (moreWorkThan_strict_order
              (setChainWork Samples.genesis (WorkBigInt 4295032833))
              (setChainWork Samples.genesis (WorkBuffer [x00; xff; xff]))
              (setChainWork Samples.genesis (WorkBigInt 0))
              (bigint_toBuffer 4295032833) [x00; xff; xff] (bigint_toBuffer 0)
              eq_refl eq_refl eq_refl) as (H1 & _ & H3 & _).
  split; [apply H1; vm_compute; reflexivity|apply H3, H1; vm_compute; reflexivity].
Defined.

Section Validation.

Variable decodeDiffBits : Z -> Buffer.
Variable twoSha256 : Buffer -> Buffer.
Variable Tx : Type.
Variable getHash : Tx -> Buffer.
Variable isCoinBase : Tx -> bool.

Lemma checkProofOfWork_cases B h :
  hash B = Some h ->
  checkProofOfWork decodeDiffBits B
  = if (0 <? Buffer_compare (rev h) (decodeDiffBits (bits B)))%Z
    then (Abrupt (ThrownString "Difficulty target not met"), set_hash B (Some (rev h)))
    else (Normal true, B).
Proof.
  intros Hh. unfold checkProofOfWork. rewrite Hh.
  destruct (0 <? _)%Z; [reflexivity|].
  f_equal. cbn. rewrite rev_involutive. destruct B; cbn in *. now subst.
Qed.

(** X4.  A failed proof-of-work check throws 'Difficulty target not met'
    and leaves the block with its hash byte-reversed; the check is then
    not repeatable: run again on that block, it compares the hash in
    buffer order (not reversed) with the target.  [checkBlock] stops at
    this first check, whatever the time and the transactions. *)
Theorem checkProofOfWork_not_repeatable (nowMs : Z) (B : Block) (h : Buffer)
        (txs : option (list Tx)) (e : exn) :
  hash B = Some h ->
  fst (checkProofOfWork decodeDiffBits B) = Abrupt e ->
  let B' := snd (checkProofOfWork decodeDiffBits B) in
  e = ThrownString "Difficulty target not met"
  /\ B' = set_hash B (Some (rev h))
  /\ fst (checkProofOfWork decodeDiffBits B')
     = (if (0 <? Buffer_compare h (decodeDiffBits (bits B)))%Z
        then Abrupt (ThrownString "Difficulty target not met")
        else Normal true)
  /\ checkBlock decodeDiffBits twoSha256 getHash isCoinBase nowMs B txs
     = (Abrupt e, B').
Proof.
  intros Hh. cbn zeta. unfold checkBlock.
  rewrite (checkProofOfWork_cases B h Hh).
  destruct (0 <? Buffer_compare (rev h) _)%Z eqn:E; cbn [fst snd]; [|discriminate].
  intros [= <-]. split; [reflexivity|]. split; [reflexivity|]. split; [|reflexivity].
  rewrite (checkProofOfWork_cases (set_hash B (Some (rev h))) (rev h) eq_refl).
  cbn [bits set_hash].
  rewrite rev_involutive.
  destruct (0 <? Buffer_compare h _)%Z; reflexivity.
Qed.

Lemma checkNoCoinBase_true rest : forall i,
  checkNoCoinBase isCoinBase i rest = Normal true
  <-> Forall (fun t => isCoinBase t = false) rest.
Proof.
  induction rest as [|t r IH]; intros i; cbn [checkNoCoinBase].
  - split; [constructor|reflexivity].
  - destruct (isCoinBase t) eqn:E.
    + split; [discriminate|]. intros H. apply Forall_cons in H as [H _]. congruence.
    + rewrite IH. split; [now constructor|]. intros H. now apply Forall_cons in H as [_ H].
Qed.

Lemma checkNoCoinBase_result rest : forall i r,
  checkNoCoinBase isCoinBase i rest = Normal r -> r = true.
Proof.
  induction rest as [|t rest IH]; intros i r; cbn [checkNoCoinBase].
  - now intros [= <-].
  - destruct (isCoinBase t); [discriminate|apply IH].
Qed.

(** X1.  [checkTransactions] returns [true] exactly for a non-empty list
    whose first transaction is a coinbase and whose other transactions
    are not; it never returns [false], every other input makes it throw. *)
Theorem checkTransactions_iff (txs : option (list Tx)) :
  (checkTransactions isCoinBase txs = Normal true
   <-> exists t0 rest, txs = Some (t0 :: rest) /\ isCoinBase t0 = true
                       /\ Forall (fun t => isCoinBase t = false) rest)
  /\ (forall r, checkTransactions isCoinBase txs = Normal r -> r = true).
Proof.
  destruct txs as [[|t0 rest]|]; cbn [checkTransactions].
  - split; [|discriminate]. split; [discriminate|]. now intros (? & ? & [=] & _).
  - destruct (isCoinBase t0) eqn:E0; cbn [negb].
    + split; [|apply checkNoCoinBase_result].
      rewrite checkNoCoinBase_true. split.
      * intros H. exists t0, rest. auto.
      * now intros (? & ? & [= <- <-] & _ & H).
    + split; [|discriminate]. split; [discriminate|].
      intros (? & ? & [= <- <-] & H & _). congruence.
  - split; [|discriminate]. split; [discriminate|]. now intros (? & ? & [=] & _).
Qed.

Lemma checkNoCoinBase_offender l1 t l2 : forall i,
  Forall (fun x => isCoinBase x = false) l1 -> isCoinBase t = true ->
  checkNoCoinBase isCoinBase i (l1 ++ t :: l2)
  = Abrupt (ThrownString ("Tx index " +:+ pretty (i + length l1)%nat
                          +:+ " must not be coinbase")).
Proof.
  induction l1 as [|x l1 IH]; intros i Hl Ht; cbn [checkNoCoinBase app length].
  - rewrite Ht, Nat.add_0_r. reflexivity.
  - apply Forall_cons in Hl as [Hx Hl]. rewrite Hx, (IH (S i) Hl Ht).
    now rewrite Nat.add_succ_r.
Qed.

(** X2.  When a coinbase turns up after the first place, the error names
    the index of the first such transaction. *)
Theorem checkTransactions_names_first_offender (t0 t : Tx) (l1 l2 : list Tx) :
  isCoinBase t0 = true ->
  Forall (fun x => isCoinBase x = false) l1 ->
  isCoinBase t = true ->
  checkTransactions isCoinBase (Some (t0 :: l1 ++ t :: l2))
  = Abrupt (ThrownString ("Tx index " +:+ pretty (S (length l1))
                          +:+ " must not be coinbase")).
Proof.
  intros H0 Hl Ht. cbn [checkTransactions]. rewrite H0. cbn [negb].
  now rewrite (checkNoCoinBase_offender l1 t l2 1 Hl Ht).
Qed.

(** X3.  [checkBlock] called with the transactions of a block never
    returns: whatever the block, the time and the list, it ends in an
    exception (at the latest in [checkMerkleRoot]). *)
Theorem checkBlock_with_txs_throws (nowMs : Z) (B : Block) (l : list Tx) :
  exists e,
    fst (checkBlock decodeDiffBits twoSha256 getHash isCoinBase nowMs B (Some l))
    = Abrupt e.
Proof.
  unfold checkBlock.
  destruct (checkProofOfWork decodeDiffBits B) as [[r|e] B1]; cbn [fst]; [|eauto].
  destruct (checkTimestamp nowMs B1) as [r1|e]; cbn [cbind]; [|eauto].
  destruct (checkTransactions isCoinBase (Some l)) as [r2|e]; cbn [cbind]; [|eauto].
  destruct (BlockFacts.checkMerkleRoot_always_throws twoSha256 Tx getHash B1 l)
    as [e ->].
  eauto.
Qed.

(** X5.  Called without transactions, [checkBlock] returns [true] exactly
    when the proof of work holds and the timestamp is at most two hours
    ahead of the clock, and it then leaves the block as it was. *)
Theorem checkBlock_without_txs (nowMs : Z) (B : Block) :
  (fst (checkBlock decodeDiffBits twoSha256 getHash isCoinBase nowMs B None)
   = Normal true
   <-> fst (checkProofOfWork decodeDiffBits B) = Normal true
       /\ (timestamp B * 1000 <= nowMs + 7200000)%Z)
  /\ (fst (checkBlock decodeDiffBits twoSha256 getHash isCoinBase nowMs B None)
      = Normal true ->
      snd (checkBlock decodeDiffBits twoSha256 getHash isCoinBase nowMs B None) = B).
Proof.
  unfold checkBlock. destruct (hash B) as [h|] eqn:Hh.
  - rewrite (checkProofOfWork_cases B h Hh).
    destruct (0 <? Buffer_compare (rev h) _)%Z; cbn [fst snd].
    + split; [|discriminate]. split; [discriminate|]. now intros [[=] _].
    + unfold checkTimestamp.
      destruct (nowMs + 2 * 60 * 60 * 1000 <? timestamp B * 1000)%Z eqn:E;
        cbn [cbind].
      * apply Z.ltb_lt in E. split; [|discriminate].
        split; [discriminate|]. intros [_ H]. lia.
      * apply Z.ltb_ge in E. split; [|reflexivity].
        split; [intros _; split; [reflexivity|lia]|reflexivity].
  - unfold checkProofOfWork. rewrite Hh. cbn [fst snd].
    split; [|discriminate]. split; [discriminate|]. now intros [[=] _].
Qed.

(** X6.  [calcMerkleRoot] returns only for at most one transaction: the
    null hash for none, the hash of the transaction for one; for two or
    more it ends in an exception. *)
Theorem calcMerkleRoot_returns_iff (txs : list Tx) (r : Buffer) :
  calcMerkleRoot twoSha256 getHash (Some txs) = Normal r
  <-> (txs = [] /\ r = NULL_HASH) \/ (exists t, txs = [t] /\ r = getHash t).
Proof.
  destruct txs as [|t [|t2 l]]; cbn.
  - split; [intros [= <-]; left; auto|].
    intros [[_ ->]|(? & [=] & _)]. reflexivity.
  - split; [intros [= <-]; right; eauto|].
    intros [[[=] _]|(? & [= <-] & ->)]. reflexivity.
  - split; [discriminate|]. intros [[[=] _]|(? & [=] & _)].
Qed.

End Validation.

Lemma checkProofOfWork_not_repeatable_witness :
  let B := mkBlock (Some Samples.genesis_hash) (Some NULL_HASH)
                   (Some Samples.genesis_merkle_root)
                   1231006505 50331649 2083236893 "1" 0 285 true None in
  fst (checkProofOfWork decodeDiffBits_model B)
  = Abrupt (ThrownString "Difficulty target not met")
  /\ hash (snd (checkProofOfWork decodeDiffBits_model B))
     = Some (rev Samples.genesis_hash).
Proof.
  cbn zeta.
  match goal with
  | |- fst (checkProofOfWork _ ?B) = _ /\ _ =>
      destruct (checkProofOfWork_not_repeatable decodeDiffBits_model
                  (fun b => b) Buffer (fun b => b) (fun _ => false)
                  0%Z B Samples.genesis_hash None
                  (ThrownString "Difficulty target not met") eq_refl)
        as (_ & H2 & _ & _); [vm_compute; reflexivity|]
  end.
  split; [vm_compute; reflexivity|]. rewrite H2. reflexivity.
Defined.

Lemma checkTransactions_iff_witness :
  checkTransactions (fun b : bool => b) (Some [true; false; false]) = Normal true
  /\ checkTransactions (fun b : bool => b) (Some [false; false])
     = Abrupt (ThrownString "First tx must be coinbase").
Proof.
  split; [|reflexivity].
  apply (checkTransactions_iff bool (fun b => b) (Some [true; false; false])).
  exists true, [false; false]. repeat split; repeat constructor.
Defined.

Lemma checkBlock_without_txs_witness :
  fst (checkBlock decodeDiffBits_model (fun b => b) (fun b : Buffer => b)
                  (fun _ => false) 1231006505000 Samples.genesis None) = Normal true
  /\ snd (checkBlock decodeDiffBits_model (fun b => b) (fun b : Buffer => b)
                     (fun _ => false) 1231006505000 Samples.genesis None)
     = Samples.genesis.
Proof.
  destruct (checkBlock_without_txs decodeDiffBits_model (fun b => b) Buffer
              (fun b => b) (fun _ => false) 1231006505000 Samples.genesis)
    as [Hiff Hsame].
  assert (H : fst (checkBlock decodeDiffBits_model (fun b => b) (fun b : Buffer => b)
                     (fun _ => false) 1231006505000 Samples.genesis None)
              = Normal true).
  { apply Hiff. split; [vm_compute; reflexivity|vm_compute; discriminate]. }
  split; [exact H|exact (Hsame H)].
Defined.

Lemma checkTransactions_names_first_offender_witness :
  checkTransactions (fun b : bool => b) (Some [true; false; false; true; true])
  = Abrupt (ThrownString "Tx index 3 must not be coinbase").
Proof.
  apply (checkTransactions_names_first_offender bool (fun b => b)
           true true [false; false] [true]).
  - reflexivity.
  - repeat constructor.
  - reflexivity.
Defined.

(** X25.  The work of a block is at least one for every target below
    2^256, and a block with a lower (harder) target never has less work
    than one with a higher target. *)
Theorem getWork_antitone (decodeDiffBitsBig : Z -> N) (B1 B2 : Block) :
  (decodeDiffBitsBig (bits B1) <= decodeDiffBitsBig (bits B2))%N ->
  (getWork decodeDiffBitsBig B2 <= getWork decodeDiffBitsBig B1)%N
  /\ ((decodeDiffBitsBig (bits B2) < largestHash)%N ->
      (1 <= getWork decodeDiffBitsBig B2)%N).
Proof.
  intros Hle. unfold getWork. split.
  - apply N.div_le_compat_l. lia.
  - intros Hlt. apply N.div_le_lower_bound; lia.
Qed.

Lemma getWork_antitone_witness :
  (getWork (fun b => be_int (decodeDiffBits_model b)) Samples.genesis
   <= getWork (fun b => be_int (decodeDiffBits_model b))
              (mkBlock None None None 0 472518933 0 "1" 0 0 false None))%N
  /\ getWork (fun b => be_int (decodeDiffBits_model b)) Samples.genesis = 4295032833%N.
Proof.
  split; [|vm_compute; reflexivity].
  destruct (getWork_antitone (fun b => be_int (decodeDiffBits_model b))
              (mkBlock None None None 0 472518933 0 "1" 0 0 false None)
              Samples.genesis) as [H _]; [vm_compute; discriminate|exact H].
Defined.

Lemma Zdiv_by_pow2_step a k :
  (0 <= k -> a / 2 ^ (k + 1) = a / 2 ^ k / 2)%Z.
Proof.
  intros Hk. rewrite Z.pow_add_r, Z.pow_1_r by lia.
  symmetry. apply Z.div_div; [|lia].
  apply Z.pow_nonzero; lia.
Qed.

(** X7.  The block subsidy halves every 210000 blocks. *)
Theorem getBlockValue_halves (COIN height : Z) :
  (0 <= COIN)%Z -> (0 <= height)%Z ->
  getBlockValue COIN (height + 210000) = (getBlockValue COIN height / 2)%Z.
Proof.
  intros _ Hh. unfold getBlockValue.
  replace (height + 210000)%Z with (height + 1 * 210000)%Z by lia.
  rewrite Z.div_add by lia.
  apply Zdiv_by_pow2_step. apply Z.div_pos; lia.
Qed.

Lemma getBlockValue_halves_witness :
  getBlockValue 100000000 (209999 + 210000) = (getBlockValue 100000000 209999 / 2)%Z
  /\ getBlockValue 100000000 209999 = 5000000000%Z.
Proof.
  split; [apply getBlockValue_halves; lia|reflexivity].
Defined.

(** X8.  The subsidy never grows with the height, stays between zero
    and fifty coins, and is zero once the number of halvings exceeds the
    size of fifty coins. *)
Theorem getBlockValue_decreasing (COIN h1 h2 : Z) :
  (0 <= COIN)%Z -> (0 <= h1 <= h2)%Z ->
  (0 <= getBlockValue COIN h2 <= getBlockValue COIN h1)%Z
  /\ (getBlockValue COIN h1 <= 50 * COIN)%Z
  /\ ((50 * COIN < 2 ^ (h2 / 210000))%Z -> getBlockValue COIN h2 = 0%Z).
Proof.
  intros HC [H1 H12]. unfold getBlockValue.
  assert (K1 : (0 <= h1 / 210000)%Z) by (apply Z.div_pos; lia).
  assert (K12 : (h1 / 210000 <= h2 / 210000)%Z) by (apply Z.div_le_mono; lia).
  assert (P1 : (0 < 2 ^ (h1 / 210000))%Z) by (apply Z.pow_pos_nonneg; lia).
  assert (P12 : (2 ^ (h1 / 210000) <= 2 ^ (h2 / 210000))%Z)
    by (apply Z.pow_le_mono_r; lia).
  split; [split|split].
  - apply Z.div_pos; lia.
  - apply Z.div_le_compat_l; lia.
  - apply Z.div_le_upper_bound; [lia|]. nia.
  - intros Hbig. apply Z.div_small. lia.
Qed.

Lemma getBlockValue_decreasing_witness :
  (0 <= getBlockValue 100000000 6930000 <= getBlockValue 100000000 0)%Z
  /\ getBlockValue 100000000 6930000 = 0%Z.
Proof.
  destruct (getBlockValue_decreasing 100000000 0 6930000) as (H1 & _ & H3);
    [lia|lia|].
  split; [exact H1|apply H3; vm_compute; reflexivity].
Defined.

End BlockMore.

(** ** More on the node *)

Module NodeMore.
Import NodeSM.

Local Abbreviation all_enabled :=
  [BlockChainInit; PeerManagerEnable; TxSenderEnable; BcManagerEnable; RpcServerEnable].

Local Abbreviation startup_state n :=
  (n = mkNode None false []
   \/ n = mkNode (Some "init") false [BlockChainInit]
   \/ n = mkNode (Some "netConnect") true all_enabled
   \/ n = mkNode (Some "blockDownload") true all_enabled).

Lemma on_event_startup n ev : startup_state n -> startup_state (on_event n ev).
Proof.
  intros [-> | [-> | [-> | ->]]]; destruct ev; cbn; auto.
Qed.

Lemma run_events_startup evs : forall n,
  startup_state n -> startup_state (run_events evs n).
Proof.
  induction evs as [|ev evs IH]; intros n Hn; [exact Hn|].
  cbn [run_events fold_left]. apply IH, on_event_startup, Hn.
Qed.

(** X11.  Whatever calls of [start] and whatever 'initComplete' and
    'netConnected' events a fresh node receives, in any order and number,
    it is in one of four configurations: not started; 'init' with the
    block chain initialised; 'netConnect' or 'blockDownload' with
    [running] set.  The block chain is initialised once and each
    collaborator is enabled once, and 'init' is never entered again. *)
Theorem run_events_configurations (evs : list NodeEvent) :
  let n := run_events evs new in
  (state n, running n, actions n) = (None, false, [])
  \/ (state n, running n, actions n) = (Some "init", false, [BlockChainInit])
  \/ (state n, running n, actions n) = (Some "netConnect", true, all_enabled)
  \/ (state n, running n, actions n) = (Some "blockDownload", true, all_enabled).
Proof.
  cbn zeta.
  destruct (run_events_startup evs new (or_introl eq_refl)) as [H|[H|[H|H]]];
    rewrite H; auto.
Qed.

(** X12.  The node only moves forward: once an event sequence has brought
    it to 'blockDownload', no further event changes it. *)
Theorem blockDownload_is_final (evs evs' : list NodeEvent) :
  state (run_events evs new) = Some "blockDownload" ->
  run_events (evs ++ evs') new = run_events evs new.
Proof.
  intros Hs. unfold run_events. rewrite fold_left_app.
  fold (run_events evs new).
  destruct (run_events_startup evs new (or_introl eq_refl)) as [H|[H|[H|H]]];
    rewrite H in Hs; try discriminate.
  rewrite H. clear. induction evs' as [|ev evs' IH]; [reflexivity|].
  cbn [fold_left]. destruct ev; exact IH.
Qed.

Lemma blockDownload_is_final_witness :
  run_events ([EvStart; EvInitComplete; EvNetConnected]
                ++ [EvStart; EvNetConnected; EvInitComplete]) new
  = run_events [EvStart; EvInitComplete; EvNetConnected] new.
Proof. apply blockDownload_is_final. reflexivity. Defined.

End NodeMore.

(** ** More on the transaction store *)

Module StoreMore.
Import TransactionStore StoreFacts.

(** *** Running parts of a computation *)

Lemma bind_run {A B} (m : M A) (k : A -> M B) st st1 a :
  m st = (st1, Normal a) -> bind m k st = k a st1.
Proof. intros H. unfold bind. now rewrite H. Qed.

Lemma bind_run_abrupt {A B} (m : M A) (k : A -> M B) st st1 e :
  m st = (st1, Abrupt e) -> bind m k st = (st1, Abrupt e).
Proof. intros H. unfold bind. now rewrite H. Qed.

Lemma bind_ext {A B} (m : M A) (k1 k2 : A -> M B) st :
  (forall a st', k1 a st' = k2 a st') -> bind m k1 st = bind m k2 st.
Proof. intros H. unfold bind. destruct (m st) as [st1 [a|e]]; [apply H|reflexivity]. Qed.

Lemma forEach_app {A} (f : A -> nat -> M unit) l1 : forall l2 i st,
  forEach f i (l1 ++ l2) st
  = bind (forEach f i l1) (fun _ => forEach f (i + length l1) l2) st.
Proof.
  induction l1 as [|x l1 IH]; intros l2 i st; cbn [app forEach length].
  - rewrite run_bind_ret, Nat.add_0_r. reflexivity.
  - rewrite run_bind_assoc. apply bind_ext. intros _ st'.
    rewrite IH. now rewrite Nat.add_succ_r.
Qed.

Lemma with_calls_nil st : with_calls (calls st ++ []) st = st.
Proof. destruct st. unfold with_calls. cbn. now rewrite app_nil_r. Qed.

Lemma with_calls_app l1 l2 st :
  with_calls (calls (with_calls (calls st ++ l1) st) ++ l2) (with_calls (calls st ++ l1) st)
  = with_calls (calls st ++ l1 ++ l2) st.
Proof. unfold with_calls. cbn. now rewrite app_assoc. Qed.

(** Running a queue of functions with an error only records the calls:
    the closures queued by [remove] return at once. *)
Lemma forEach_invoke_error q e t : forall i st,
  Forall (fun cb => is_function cb = true) q ->
  forEach (fun cb (_ : nat) => invoke cb (Some e) t) i q st
  = (with_calls (calls st ++ user_calls q (Some e) t) st, Normal tt).
Proof.
  induction q as [|cb q IH]; intros i st Hq; cbn [forEach].
  - cbn. now rewrite with_calls_nil.
  - apply Forall_cons in Hq as [Hcb Hq].
    destruct cb as [id|h| |n]; try discriminate.
    + rewrite (bind_run _ _ st _ tt (invoke_UserFn_eq st id (Some e) t)).
      rewrite (IH (S i) _ Hq). cbn [user_calls omap].
      change (omap _ q) with (user_calls q (Some e) t).
      now rewrite (with_calls_app [mkCall id (Some e) t]).
    + cbn [invoke]. rewrite run_bind_ret. apply (IH (S i) st Hq).
Qed.

(** Running a queue of caller-supplied functions records the calls. *)
Lemma forEach_invoke_users ids err t : forall i st,
  forEach (fun cb (_ : nat) => invoke cb err t) i (UserFn <$> ids) st
  = (with_calls (calls st ++ ((fun id => mkCall id err t) <$> ids)) st, Normal tt).
Proof.
  induction ids as [|id ids IH]; intros i st; cbn [forEach fmap list_fmap].
  - cbn. now rewrite with_calls_nil.
  - rewrite (bind_run _ _ st _ tt (invoke_UserFn_eq st id err t)).
    rewrite (IH (S i)). now rewrite (with_calls_app [mkCall id err t]).
Qed.

Lemma with_emitted_nil st : with_emitted (emitted st ++ []) st = st.
Proof. destruct st. unfold with_emitted. cbn. now rewrite app_nil_r. Qed.

Lemma forEach_emit_eq {A} (f : A -> Event) xs : forall i st,
  forEach (fun a (_ : nat) => emit (f a)) i xs st
  = (with_emitted (emitted st ++ (f <$> xs)) st, Normal tt).
Proof.
  induction xs as [|x xs IH]; intros i st; cbn [forEach fmap list_fmap].
  - cbn. now rewrite with_emitted_nil.
  - unfold emit at 1. rewrite run_bind_modify, (IH (S i)).
    unfold with_emitted. cbn. now rewrite <- app_assoc.
Qed.

Lemma remove_accepted_eq st h t :
  txIndex st !! h = Some (Verified t) ->
  remove h st
  = (with_emitted
       (emitted st ++ TxCancel t h ::
          (if liveAccounting st
           then (fun a => TxCancelAcc a t h) <$> getAffectedAccounts t else []))
       (with_txIndex (delete h (txIndex st)) st), Normal tt).
Proof.
  intros E. unfold remove. rewrite run_bind_gets, E, run_bind_modify.
  unfold emit at 1. rewrite run_bind_modify, run_bind_gets.
  cbn [liveAccounting with_emitted with_txIndex].
  destruct (liveAccounting st).
  - rewrite (forEach_emit_eq (fun a => TxCancelAcc a t h)).
    unfold with_emitted, with_txIndex. cbn. now rewrite <- app_assoc.
  - reflexivity.
Qed.

(** X13.  [remove] of an accepted transaction takes it out of the pool
    and emits [txCancel], followed with live accounting by one
    [txCancel:<account>] per affected account in order; afterwards the
    hash is unknown and a second [remove] changes nothing. *)
Theorem remove_accepted_outcome (st : Store) (h : string) (t : Transaction) :
  txIndex st !! h = Some (Verified t) ->
  let st' := fst (remove h st) in
  txIndex st' = delete h (txIndex st)
  /\ emitted st'
     = emitted st ++ TxCancel t h ::
         (if liveAccounting st
          then (fun a => TxCancelAcc a t h) <$> getAffectedAccounts t else [])
  /\ isKnown st' h = false
  /\ remove h st' = (st', Normal tt).
Proof.
  intros E. cbn zeta. rewrite (remove_accepted_eq st h t E). cbn [fst].
  split; [reflexivity|]. split; [reflexivity|].
  assert (Hnone : delete h (txIndex st) !! h = None) by apply lookup_delete_eq.
  split.
  - unfold isKnown. cbn. now rewrite Hnone.
  - apply remove_unknown_eq. exact Hnone.
Qed.

Lemma remove_accepted_outcome_witness :
  let st := run [OpAdd 1 Samples.txA (UserFn 0);
                 OpVerified 2 (hash Samples.txA) None] (new true) in
  emitted (fst (remove (hash Samples.txA) st))
  = emitted st ++ [TxCancel (stamp 1 Samples.txA) (hash Samples.txA);
                   TxCancelAcc "YWxpY2U=" (stamp 1 Samples.txA) (hash Samples.txA)]
  /\ isKnown (fst (remove (hash Samples.txA) st)) (hash Samples.txA) = false.
Proof.
  cbn zeta.
  match goal with
  | |- emitted (fst (remove _ ?s)) = _ /\ _ =>
      destruct (remove_accepted_outcome s (hash Samples.txA) (stamp 1 Samples.txA))
        as (_ & H2 & H3 & _); [vm_compute; reflexivity|]
  end.
  split; [rewrite H2; vm_compute; reflexivity|exact H3].
Defined.

(** X14.  When a verification reports an error and only functions wait
    in the queue, each caller-supplied function is called once, in
    queue order, with the error and the transaction, and nothing is
    emitted.  A missing-source error files the transaction as an orphan
    under the missing hash and leaves its queue in the index, so the
    hash stays known; any other error removes the entry, so the hash is
    unknown again. *)
Theorem verify_error_outcome (st : Store) (now : nat) (t : Transaction)
        (q : list Callback) (e : exn) :
  txIndex st !! hash t = Some (Queue q) ->
  Forall (fun cb => is_function cb = true) q ->
  let st' := fst (verifyCallback now t (Some e) st) in
  snd (verifyCallback now t (Some e) st) = Normal tt
  /\ calls st' = calls st ++ user_calls q (Some e) (Some t)
  /\ emitted st' = emitted st
  /\ match e with
     | MissingSourceError missing =>
         txIndex st' = txIndex st
         /\ orphanTxIndex st' = <[hash t := t]> (orphanTxIndex st)
         /\ orphanTxByPrev st' !! missing
            = Some (default [] (orphanTxByPrev st !! missing) ++ [t])
         /\ isKnown st' (hash t) = true
     | _ =>
         txIndex st' = delete (hash t) (txIndex st)
         /\ orphanTxIndex st' = orphanTxIndex st
         /\ orphanTxByPrev st' = orphanTxByPrev st
         /\ isKnown st' (hash t) = false
     end.
Proof.
  intros E Hq. cbn zeta. unfold verifyCallback. rewrite run_bind_gets, E.
  assert (Hdel : isKnown (with_txIndex (delete (hash t) (txIndex st)) st) (hash t)
                 = false).
  { unfold isKnown. cbn. now rewrite lookup_delete_eq. }
  destruct e as [m|m|m|missing].
  1-3: rewrite run_bind_modify, (forEach_invoke_error q _ (Some t) 0 _ Hq);
       cbn [fst snd]; repeat split; exact Hdel.
  rewrite run_bind_assoc, run_bind_modify, run_bind_modify.
  rewrite (forEach_invoke_error q _ (Some t) 0 _ Hq). cbn [fst snd].
  split; [reflexivity|]. split; [reflexivity|]. split; [reflexivity|].
  split; [reflexivity|]. split; [reflexivity|]. split.
  - cbn. rewrite lookup_insert_eq. now destruct (orphanTxByPrev st !! missing).
  - unfold isKnown. cbn. now rewrite E.
Qed.

Lemma verify_error_outcome_witness :
  let st := fst (remove (hash Samples.txA)
                        (run [OpAdd 1 Samples.txA (UserFn 0);
                              OpAdd 2 Samples.txA (UserFn 1)] (new false))) in
  calls (fst (verifyCallback 3 (stamp 1 Samples.txA) (Some (ErrorObject "bad")) st))
  = [mkCall 0 (Some (ErrorObject "bad")) (Some (stamp 1 Samples.txA));
     mkCall 1 (Some (ErrorObject "bad")) (Some (stamp 1 Samples.txA))].
Proof.
  cbn zeta.
  match goal with
  | |- calls (fst (verifyCallback _ _ _ ?s)) = _ =>
      destruct (verify_error_outcome s 3 (stamp 1 Samples.txA)
                  [UserFn 0; UserFn 1; RemoveLater (hash Samples.txA)]
                  (ErrorObject "bad"))
        as (_ & H & _); [vm_compute; reflexivity|repeat constructor|]
  end.
  rewrite H. vm_compute. reflexivity.
Defined.

Lemma forEach_file_under_eq t accs : forall i st,
  forEach (fun a (_ : nat) =>
             modify (fun st =>
                       with_txIndexByAcc
                         (<[a := default [] (txIndexByAcc st !! a) ++ [hash t]]>
                            (txIndexByAcc st)) st) ;;;
             emit (TxNotifyAcc a t)) i accs st
  = (with_emitted (emitted st ++ ((fun a => TxNotifyAcc a t) <$> accs))
       (with_txIndexByAcc (file_under (hash t) accs (txIndexByAcc st)) st), Normal tt).
Proof.
  induction accs as [|a accs IH]; intros i st; cbn [forEach fmap list_fmap].
  - cbn. destruct st. unfold with_emitted, with_txIndexByAcc. cbn.
    now rewrite app_nil_r.
  - rewrite run_bind_assoc, run_bind_modify. unfold emit at 1.
    rewrite run_bind_modify, (IH (S i)).
    unfold with_emitted, with_txIndexByAcc. cbn. now rewrite <- app_assoc.
Qed.

(** The store after the announcement of an accepted transaction. *)
Lemma success_tail_eq now t st :
  orphanTxByPrev st !! hash t = None ->
  (do byPrev <- gets orphanTxByPrev ;;
   match byPrev !! hash t with
   | Some orphans =>
       forEach (fun o i => add now o (Num i) ;;; ret tt) 0 orphans ;;;
       modify (fun st => with_orphanTxByPrev (delete (hash t) (orphanTxByPrev st)) st)
   | None => ret tt
   end ;;;
   emit (TxNotify t) ;;;
   do la <- gets liveAccounting ;;
   if la then
     forEach (fun i _ =>
                modify (fun st =>
                          with_txIndexByAcc
                            (<[i := default [] (txIndexByAcc st !! i) ++ [hash t]]>
                               (txIndexByAcc st)) st) ;;;
                emit (TxNotifyAcc i t))
             0 (getAffectedAccounts t)
   else ret tt) st
  = (with_emitted
       (emitted st ++ TxNotify t ::
          (if liveAccounting st
           then (fun a => TxNotifyAcc a t) <$> getAffectedAccounts t else []))
       (with_txIndexByAcc
          (if liveAccounting st
           then file_under (hash t) (getAffectedAccounts t) (txIndexByAcc st)
           else txIndexByAcc st) st), Normal tt).
Proof.
  intros Ho. rewrite run_bind_gets, Ho, run_bind_ret.
  unfold emit at 1. rewrite run_bind_modify, run_bind_gets.
  cbn [liveAccounting with_emitted].
  destruct (liveAccounting st).
  - rewrite forEach_file_under_eq.
    unfold with_emitted, with_txIndexByAcc. cbn. now rewrite <- app_assoc.
  - destruct st. reflexivity.
Qed.

(** X15.  When a verification succeeds, only caller-supplied functions
    wait and no orphan waits for the transaction: the transaction is
    filed as accepted, each function is called once, in queue order, with
    [(null, tx)], then [txNotify] is emitted, followed with live
    accounting by one [txNotify:<account>] per affected account in
    order, the hash being filed under each of these accounts. *)
Theorem verify_success_outcome (st : Store) (now : nat) (t : Transaction)
        (ids : list nat) :
  txIndex st !! hash t = Some (Queue (UserFn <$> ids)) ->
  orphanTxByPrev st !! hash t = None ->
  let st' := fst (verifyCallback now t None st) in
  snd (verifyCallback now t None st) = Normal tt
  /\ txIndex st' = <[hash t := Verified t]> (txIndex st)
  /\ calls st' = calls st ++ ((fun id => mkCall id None (Some t)) <$> ids)
  /\ emitted st'
     = emitted st ++ TxNotify t ::
         (if liveAccounting st
          then (fun a => TxNotifyAcc a t) <$> getAffectedAccounts t else [])
  /\ txIndexByAcc st'
     = (if liveAccounting st
        then file_under (hash t) (getAffectedAccounts t) (txIndexByAcc st)
        else txIndexByAcc st).
Proof.
  intros E Ho. cbn zeta. unfold verifyCallback.
  rewrite run_bind_gets, E, run_bind_modify.
  rewrite (bind_run _ _ _ _ tt (forEach_invoke_users ids None (Some t) 0 _)).
  rewrite success_tail_eq by exact Ho. cbn. repeat split.
Qed.

Lemma verify_success_outcome_witness :
  let st := fst (add 1 Samples.txA (UserFn 5) (new true)) in
  let st' := fst (verifyCallback 2 (stamp 1 Samples.txA) None st) in
  emitted st' = [TxNotify (stamp 1 Samples.txA);
                 TxNotifyAcc "YWxpY2U=" (stamp 1 Samples.txA)]
  /\ txIndexByAcc st' !! "YWxpY2U=" = Some [hash Samples.txA].
Proof.
  cbn zeta.
  destruct (verify_success_outcome (fst (add 1 Samples.txA (UserFn 5) (new true)))
              2 (stamp 1 Samples.txA) [5])
    as (_ & _ & _ & H4 & H5); [vm_compute; reflexivity ..|].
  rewrite H4, H5. split; vm_compute; reflexivity.
Defined.

(** X16.  A [remove] that arrives while the transaction is being
    verified takes effect when the verification succeeds: the
    transaction ends up out of the pool, and the [txCancel] events are
    emitted before the [txNotify] events of the same transaction. *)
Theorem remove_while_verifying (st : Store) (now : nat) (t : Transaction)
        (ids1 ids2 : list nat) :
  txIndex st !! hash t
  = Some (Queue ((UserFn <$> ids1) ++ RemoveLater (hash t) :: (UserFn <$> ids2))) ->
  orphanTxByPrev st !! hash t = None ->
  let st' := fst (verifyCallback now t None st) in
  snd (verifyCallback now t None st) = Normal tt
  /\ txIndex st' = delete (hash t) (txIndex st)
  /\ isKnown st' (hash t) = false
  /\ calls st' = calls st ++ ((fun id => mkCall id None (Some t)) <$> (ids1 ++ ids2))
  /\ emitted st'
     = emitted st
       ++ TxCancel t (hash t) ::
          (if liveAccounting st
           then (fun a => TxCancelAcc a t (hash t)) <$> getAffectedAccounts t else [])
       ++ TxNotify t ::
          (if liveAccounting st
           then (fun a => TxNotifyAcc a t) <$> getAffectedAccounts t else []).
Proof.
  intros E Ho. cbn zeta. unfold verifyCallback.
  rewrite run_bind_gets, E, run_bind_modify.
  set (st1 := with_txIndex (<[hash t := Verified t]> (txIndex st)) st).
  assert (Hq : forEach (fun cb (_ : nat) => invoke cb None (Some t)) 0
                 ((UserFn <$> ids1) ++ RemoveLater (hash t) :: (UserFn <$> ids2)) st1
               = (with_calls
                    (calls st ++ ((fun id => mkCall id None (Some t)) <$> (ids1 ++ ids2)))
                    (with_emitted
                       (emitted st ++ TxCancel t (hash t) ::
                          (if liveAccounting st
                           then (fun a => TxCancelAcc a t (hash t))
                                  <$> getAffectedAccounts t else []))
                       (with_txIndex (delete (hash t) (txIndex st)) st)), Normal tt)).
  { rewrite forEach_app.
    rewrite (bind_run _ _ _ _ tt (forEach_invoke_users ids1 None (Some t) 0 _)).
    cbn [forEach invoke].
    erewrite (bind_run (remove (hash t)));
      [|apply (remove_accepted_eq _ _ t); cbn; apply lookup_insert_eq].
    rewrite forEach_invoke_users.
    unfold st1, with_calls, with_emitted, with_txIndex. cbn.
    rewrite delete_insert_eq, fmap_app, app_assoc. reflexivity. }
  rewrite (bind_run _ _ _ _ tt Hq).
  rewrite success_tail_eq by exact Ho. cbn.
  split; [reflexivity|]. split; [reflexivity|]. split.
  - unfold isKnown. cbn. now rewrite lookup_delete_eq.
  - split; [reflexivity|]. now rewrite <- app_assoc.
Qed.

Lemma remove_while_verifying_witness :
  let st := with_verifying []
              (run [OpAdd 1 Samples.txA (UserFn 0); OpRemove (hash Samples.txA)]
                   (new false)) in
  let st' := fst (verifyCallback 2 (stamp 1 Samples.txA) None st) in
  isKnown st' (hash Samples.txA) = false
  /\ emitted st' = [TxCancel (stamp 1 Samples.txA) (hash Samples.txA);
                    TxNotify (stamp 1 Samples.txA)].
Proof.
  cbn zeta.
  destruct (remove_while_verifying
              (with_verifying []
                 (run [OpAdd 1 Samples.txA (UserFn 0); OpRemove (hash Samples.txA)]
                      (new false)))
              2 (stamp 1 Samples.txA) [0] [])
    as (_ & _ & H3 & _ & H5); [vm_compute; reflexivity ..|].
  split; [exact H3|]. rewrite H5. vm_compute. reflexivity.
Defined.

(** X17.  A value that is not a function in the queue (as [add] called
    without a callback leaves there) makes the success path throw at that
    place: the transaction is filed as accepted and the functions queued
    before it have been called, but the rest of the queue is not called,
    no [txNotify] is emitted and the orphans waiting for the transaction
    are not looked at. *)
Theorem verify_success_crash (st : Store) (now : nat) (t : Transaction)
        (ids : list nat) (cb : Callback) (q : list Callback) :
  txIndex st !! hash t = Some (Queue ((UserFn <$> ids) ++ cb :: q)) ->
  is_function cb = false ->
  verifyCallback now t None st
  = (with_calls (calls st ++ ((fun id => mkCall id None (Some t)) <$> ids))
       (with_txIndex (<[hash t := Verified t]> (txIndex st)) st),
     Abrupt (TypeError "callback is not a function")).
Proof.
  intros E Hcb. unfold verifyCallback.
  rewrite run_bind_gets, E, run_bind_modify.
  apply bind_run_abrupt. rewrite forEach_app.
  rewrite (bind_run _ _ _ _ tt (forEach_invoke_users ids None (Some t) 0 _)).
  cbn [forEach]. apply bind_run_abrupt.
  destruct cb; try discriminate; reflexivity.
Qed.

Lemma verify_success_crash_witness :
  let st := with_verifying [] (run [OpAdd 1 Samples.txA Undefined] (new true)) in
  let st' := fst (verifyCallback 2 (stamp 1 Samples.txA) None st) in
  txIndex st' !! hash Samples.txA = Some (Verified (stamp 1 Samples.txA))
  /\ emitted st' = [].
Proof.
  cbn zeta.
  rewrite (verify_success_crash
             (with_verifying [] (run [OpAdd 1 Samples.txA Undefined] (new true)))
             2 (stamp 1 Samples.txA) [] Undefined []);
    [|vm_compute; reflexivity|reflexivity].
  split; vm_compute; reflexivity.
Defined.

(** X18.  In every store the operations can reach, the verifications
    that have not reported yet are for pairwise different hashes, and
    each of them finds the array of its callbacks in [txIndex] when it
    reports (the "verification callback misfired" branch is never taken);
    none of them is for an accepted or an orphaned transaction. *)
Theorem one_verification_per_hash (la : bool) (ops : list Op) :
  let st := run ops (new la) in
  NoDup (hash <$> verifying st)
  /\ (forall t, t ∈ verifying st ->
        queued st (hash t) /\ ~ accepted st (hash t) /\ ~ orphan st (hash t)).
Proof.
  cbn zeta. pose proof (run_Inv ops _ (Inv_new la)) as [H1 H2 H3].
  split; [exact H2|]. intros t Ht. pose proof (H1 t Ht) as [q Hq].
  split; [exists q; exact Hq|]. split.
  - intros [s Hs]. congruence.
  - intros Ho. apply (H3 _ Ho). apply list_elem_of_fmap. eauto.
Qed.

Lemma one_verification_per_hash_witness :
  let st := run [OpAdd 1 Samples.txA (UserFn 0); OpAdd 2 Samples.txA (UserFn 1);
                 OpAdd 3 Samples.txB (UserFn 2)] (new false) in
  verifying st = [stamp 1 Samples.txA; stamp 3 Samples.txB]
  /\ queued st (hash Samples.txA).
Proof.
  cbn zeta. split; [vm_compute; reflexivity|].
  destruct (one_verification_per_hash false
              [OpAdd 1 Samples.txA (UserFn 0); OpAdd 2 Samples.txA (UserFn 1);
               OpAdd 3 Samples.txB (UserFn 2)]) as [_ H].
  apply (H (stamp 1 Samples.txA)). vm_compute. left.
Defined.

(** X19.  Once a transaction has become an orphan, nothing the store is
    asked to do afterwards gets it accepted or verified again: its entry
    stays an array, and every later [add] of a transaction with that
    hash returns [false] without launching a verification. *)
Theorem orphan_stays_unverified (la : bool) (ops ops' : list Op) (h : string)
        (now : nat) (t : Transaction) (cb : Callback) :
  orphan (run ops (new la)) h ->
  hash t = h ->
  let st' := run (ops ++ ops') (new la) in
  queued st' h
  /\ ~ accepted st' h
  /\ snd (add now t cb st') = Normal false
  /\ verifying (fst (add now t cb st')) = verifying st'.
Proof.
  intros Ho <-. cbn zeta.
  destruct (orphan_never_accepted la ops ops' (hash t) Ho) as [[q Hq] Hna].
  split; [exists q; exact Hq|]. split; [exact Hna|].
  rewrite (add_queued_eq _ now t cb q Hq). cbn [fst snd].
  split; [reflexivity|]. now destruct (is_function cb).
Qed.

Lemma orphan_stays_unverified_witness :
  let ops := [OpAdd 1 Samples.txC (UserFn 0);
              OpVerified 2 (hash Samples.txC)
                         (Some (MissingSourceError (hash Samples.txP)))] in
  let ops' := [OpAdd 3 Samples.txP (UserFn 1);
               OpVerified 4 (hash Samples.txP) None] in
  let st' := run (ops ++ ops') (new false) in
  queued st' (hash Samples.txC)
  /\ ~ accepted st' (hash Samples.txC)
  /\ snd (add 5 Samples.txC (UserFn 2) st') = Normal false
  /\ verifying (fst (add 5 Samples.txC (UserFn 2) st')) = verifying st'.
Proof.
  cbn zeta. apply orphan_stays_unverified; [|reflexivity].
  exists (stamp 1 Samples.txC). vm_compute. reflexivity.
Defined.

(** *** The account index *)

Lemma getByAccount_loop_eq idx l : forall n x,
  getByAccount_loop idx l n x
  = (n ++ filter (fun h => is_Some (idx !! h)) l, x ++ omap (fun h => idx !! h) l).
Proof.
  induction l as [|h l IH]; intros n x; cbn [getByAccount_loop].
  - cbn. now rewrite !app_nil_r.
  - destruct (idx !! h) as [e|] eqn:E.
    + rewrite IH, filter_cons_True by (rewrite E; eauto).
      cbn [omap list_omap]. rewrite E. now rewrite <- !app_assoc.
    + rewrite IH, filter_cons_False by (rewrite E; intros [? ?]; discriminate).
      cbn [omap list_omap]. now rewrite E.
Qed.

Lemma omap_filter_is_Some {A B} (f : A -> option B) (l : list A) :
  omap f (filter (fun a => is_Some (f a)) l) = omap f l.
Proof.
  induction l as [|a l IH]; [reflexivity|].
  destruct (f a) as [b|] eqn:E.
  - rewrite filter_cons_True by (rewrite E; eauto). cbn. now rewrite E, IH.
  - rewrite filter_cons_False by (rewrite E; intros [? ?]; discriminate).
    cbn. now rewrite E, IH.
Qed.

Lemma filter_filter_same {A} (P : A -> Prop) `{forall a, Decision (P a)} (l : list A) :
  filter P (filter P l) = filter P l.
Proof.
  induction l as [|a l IH]; [reflexivity|].
  destruct (decide (P a)) as [Hp|Hn].
  - rewrite (filter_cons_True P a l Hp), (filter_cons_True P a _ Hp). now rewrite IH.
  - now rewrite (filter_cons_False P a l Hn).
Qed.

Lemma getByAccount_eq st k l :
  txIndexByAcc st !! k = Some l ->
  getByAccount k st
  = (with_txIndexByAcc
       (match filter (fun h => is_Some (txIndex st !! h)) l with
        | [] => delete k (txIndexByAcc st)
        | n => <[k := n]> (txIndexByAcc st)
        end) st,
     Normal (omap (fun h => txIndex st !! h) l)).
Proof.
  intros E. unfold getByAccount. rewrite run_bind_gets, E, run_bind_gets.
  rewrite getByAccount_loop_eq. cbn [app].
  destruct (filter _ l); reflexivity.
Qed.

(** X20.  [getByAccount] returns the entries of the hashes filed under
    the account that are still in [txIndex], in filing order, and prunes
    the account's list to exactly these hashes: the list is replaced by
    the pruned one when a hash is left and the account's key is deleted
    when none is left, the other accounts staying as they are;
    [txIndex] is not touched, and calling it again returns the same
    entries and changes nothing more. *)
Theorem getByAccount_prunes (st : Store) (k : string) (l : list string) :
  txIndexByAcc st !! k = Some l ->
  let st' := fst (getByAccount k st) in
  let kept := filter (fun h => is_Some (txIndex st !! h)) l in
  snd (getByAccount k st) = Normal (omap (fun h => txIndex st !! h) l)
  /\ txIndex st' = txIndex st
  /\ txIndexByAcc st' !! k = match kept with
                             | [] => None
                             | _ => Some kept
                             end
  /\ txIndexByAcc st' = match kept with
                        | [] => delete k (txIndexByAcc st)
                        | _ => <[k := kept]> (txIndexByAcc st)
                        end
  /\ getByAccount k st' = (st', snd (getByAccount k st)).
Proof.
  intros E. cbn zeta. rewrite (getByAccount_eq st k l E). cbn [fst snd].
  split; [reflexivity|]. split; [reflexivity|].
  destruct (filter (fun h => is_Some (txIndex st !! h)) l) as [|h n] eqn:F.
  - split; [cbn; now rewrite lookup_delete_eq|]. split; [reflexivity|].
    unfold getByAccount. rewrite run_bind_gets. cbn [txIndexByAcc with_txIndexByAcc].
    rewrite lookup_delete_eq. cbn.
    rewrite <- (omap_filter_is_Some (fun h => txIndex st !! h) l), F. reflexivity.
  - split; [cbn; now rewrite lookup_insert_eq|]. split; [reflexivity|].
    rewrite (getByAccount_eq _ k (h :: n)) by (cbn; apply lookup_insert_eq).
    cbn [txIndex with_txIndexByAcc txIndexByAcc].
    rewrite <- F, filter_filter_same, omap_filter_is_Some, F.
    unfold with_txIndexByAcc. cbn. now rewrite insert_insert_eq.
Qed.

Lemma getByAccount_prunes_witness :
  let st := fst (remove (hash Samples.txA)
                   (run [OpAdd 1 Samples.txA (UserFn 0);
                         OpVerified 2 (hash Samples.txA) None;
                         OpAdd 3 Samples.txP (UserFn 1);
                         OpVerified 4 (hash Samples.txP) None] (new true))) in
  let st0 := fst (remove (hash Samples.txB)
                    (run [OpAdd 1 Samples.txB (UserFn 0);
                          OpVerified 2 (hash Samples.txB) None] (new true))) in
  (snd (getByAccount "YWxpY2U=" st) = Normal [Verified (stamp 3 Samples.txP)]
   /\ txIndexByAcc (fst (getByAccount "YWxpY2U=" st)) !! "YWxpY2U="
      = Some [hash Samples.txP])
  /\ (snd (getByAccount "Ym9i" st0) = Normal []
      /\ txIndexByAcc st0 !! "Ym9i" = Some [hash Samples.txB]
      /\ txIndexByAcc (fst (getByAccount "Ym9i" st0)) !! "Ym9i" = None).
Proof.
  cbn zeta. split.
  - match goal with
    | |- snd (getByAccount _ ?s) = _ /\ _ =>
        destruct (getByAccount_prunes s "YWxpY2U=" [hash Samples.txA; hash Samples.txP])
          as (H1 & _ & H3 & _); [vm_compute; reflexivity|]
    end.
    split; [rewrite H1|rewrite H3]; vm_compute; reflexivity.
  - match goal with
    | |- snd (getByAccount _ ?s) = _ /\ _ =>
        destruct (getByAccount_prunes s "Ym9i" [hash Samples.txB])
          as (H1 & _ & H3 & _); [vm_compute; reflexivity|]
    end.
    split; [rewrite H1; vm_compute; reflexivity|].
    split; [vm_compute; reflexivity|rewrite H3; vm_compute; reflexivity].
Defined.

End StoreMore.

(** ** The message handlers *)

Module DispatchFacts.
Import TransactionStore StoreFacts NodeDispatch.

Local Abbreviation accepted_tx st h :=
  (match txIndex st !! h with
   | Some (Verified t) => Some t
   | _ => None
   end).

Lemma get_Undefined_eq st h : get h Undefined st = (st, Normal (accepted_tx st h)).
Proof.
  unfold get. rewrite run_bind_gets.
  destruct (txIndex st !! h) as [[q|t]|]; reflexivity.
Qed.

(** X21.  [handleGetdata] leaves the store as it is and sends, in message
    order, exactly the transactions asked for by a type-1 entry that are
    accepted in the pool; entries of another type, and hashes that are
    unknown, being verified or orphaned, get no reply. *)
Theorem handleGetdata_replies (invs : list InvItem) (st : Store)
        (sent : list Transaction) :
  handleGetdata invs st sent
  = (st, sent ++ omap (fun inv => if (inv_type inv =? 1)%Z
                                   then accepted_tx st (inv_hash inv)
                                   else None) invs).
Proof.
  revert sent. induction invs as [|inv invs IH]; intros sent; cbn [handleGetdata omap list_omap].
  - now rewrite app_nil_r.
  - destruct (inv_type inv =? 1)%Z; [|apply IH].
    rewrite get_Undefined_eq.
    destruct (accepted_tx st (inv_hash inv)) as [t|]; rewrite IH; [|reflexivity].
    now rewrite <- app_assoc.
Qed.

(** X22.  In every store the operations can reach, [handleTx] of a
    transaction whose hash is being verified, accepted or orphaned
    changes nothing (so a peer sending an orphan again does not get it
    verified again); for a standard non-coinbase transaction without an
    entry it launches one verification and the hash is known from then
    on. *)
Theorem handleTx_known_or_launched (la : bool) (ops : list Op) (logger now : nat)
        (t : Transaction) :
  let st := run ops (new la) in
  (queued st (hash t) \/ accepted st (hash t) \/ orphan st (hash t) ->
   handleTx logger now t st = st)
  /\ (txIndex st !! hash t = None -> isCoinBase t = false -> isStandard t = true ->
      verifying (handleTx logger now t st) = verifying st ++ [stamp now t]
      /\ isKnown (handleTx logger now t st) (hash t) = true).
Proof.
  cbn zeta. split.
  - pose proof (run_Inv ops _ (Inv_new la)) as HI. unfold handleTx, isKnown.
    intros [[q Hq]|[[s Hs]|Ho]].
    + now rewrite Hq.
    + now rewrite Hs.
    + destruct (inv_orphan _ HI _ Ho) as [[q Hq] _]. now rewrite Hq.
  - intros E Hc Hs. unfold handleTx, isKnown at 1 3. rewrite E.
    rewrite (add_new_eq _ _ _ _ E), Hc, Hs. cbn [negb fst].
    split; [reflexivity|]. unfold isKnown. cbn. now rewrite lookup_insert_eq.
Qed.

Lemma handleTx_known_or_launched_witness :
  let ops := [OpAdd 1 Samples.txC (UserFn 0);
              OpVerified 2 (hash Samples.txC)
                         (Some (MissingSourceError (hash Samples.txP)))] in
  handleTx 9 3 Samples.txC (run ops (new false)) = run ops (new false)
  /\ isKnown (handleTx 9 3 Samples.txP (run ops (new false))) (hash Samples.txP) = true.
Proof.
  cbn zeta. split.
  - apply (handleTx_known_or_launched false). right. right.
    exists (stamp 1 Samples.txC). vm_compute. reflexivity.
  - apply (handleTx_known_or_launched false); [vm_compute; reflexivity|reflexivity ..].
Defined.

(** *** [handleInv] and the reports of the storage *)

Local Abbreviation nonempty l := (negb (Nat.eqb (length l) 0)).

(** The link between the counter, the reports still awaited and the
    requests sent; [o] is the number of invs of another type. *)
Local Abbreviation balanced o c :=
  (toCheck c = Z.add (Z.of_nat (length (awaiting c))) (Z.of_nat o)
   /\ NoDup (awaiting c)
   /\ getdata c = if Z.eqb (toCheck c) 0 && nonempty (unknownInvs c)
                  then [unknownInvs c] else []).

Lemma handleInv_loop_fields st invs : forall i c,
  let c' := handleInv_loop st i invs c in
  (toCheck c' + Z.of_nat (length invs)
   = toCheck c + Z.of_nat (length (block_indices i invs))
     + Z.of_nat (length (other_types invs)))%Z
  /\ unknownInvs c' = unknownInvs c ++ unknown_txs st invs
  /\ awaiting c' = awaiting c ++ block_indices i invs
  /\ getdata c' = getdata c.
Proof.
  induction invs as [|inv invs IH]; intros i c; cbn zeta.
  - cbn. rewrite !app_nil_r. repeat split; lia.
  - cbn [handleInv_loop block_indices].
    unfold unknown_txs, other_types. cbn [List.filter].
    fold (unknown_txs st invs). fold (other_types invs).
    destruct (inv_type inv =? 1)%Z; [|destruct (inv_type inv =? 2)%Z]; cbn [negb andb].
    + match goal with
      | |- context [handleInv_loop st (S i) invs ?c1] =>
          destruct (IH (S i) c1) as (H1 & H2 & H3 & H4)
      end.
      cbn [toCheck unknownInvs awaiting getdata] in *.
      rewrite H2, H3, H4. split; [cbn [length]; lia|].
      destruct (isKnown st (inv_hash inv)); cbn [negb];
        repeat split; now rewrite <- ?app_assoc.
    + match goal with
      | |- context [handleInv_loop st (S i) invs ?c1] =>
          destruct (IH (S i) c1) as (H1 & H2 & H3 & H4)
      end.
      cbn [toCheck unknownInvs awaiting getdata] in *.
      rewrite H2, H3, H4. split; [cbn [length]; lia|].
      repeat split. now rewrite <- app_assoc.
    + destruct (IH (S i) c) as (H1 & H2 & H3 & H4).
      rewrite H2, H3, H4. split; [cbn [length]; lia|]. repeat split.
Qed.

Lemma block_indices_ge invs : forall i j, j ∈ block_indices i invs -> (i <= j)%nat.
Proof.
  induction invs as [|inv invs IH]; intros i j Hj; cbn [block_indices] in Hj.
  - inversion Hj.
  - destruct (negb _ && _).
    + apply elem_of_cons in Hj as [->|Hj]; [lia|]. apply IH in Hj. lia.
    + apply IH in Hj. lia.
Qed.

Lemma block_indices_NoDup invs : forall i, NoDup (block_indices i invs).
Proof.
  induction invs as [|inv invs IH]; intros i; cbn [block_indices].
  - constructor.
  - destruct (negb _ && _); [|apply IH].
    constructor; [|apply IH]. intros Hi. apply block_indices_ge in Hi. lia.
Qed.

Lemma maybe_send_fields c :
  toCheck (maybe_send c) = toCheck c
  /\ unknownInvs (maybe_send c) = unknownInvs c
  /\ awaiting (maybe_send c) = awaiting c.
Proof. unfold maybe_send. destruct (_ && _); repeat split. Qed.

Lemma maybe_send_getdata c :
  getdata c = [] ->
  getdata (maybe_send c)
  = if (toCheck c =? 0)%Z && nonempty (unknownInvs c) then [unknownInvs c] else [].
Proof. intros H. unfold maybe_send. destruct (_ && _); cbn; now rewrite H. Qed.

Lemma handleInv_balanced st invs :
  balanced (length (other_types invs)) (handleInv st invs).
Proof.
  unfold handleInv.
  destruct (handleInv_loop_fields st invs 0
              (mkInvCheck (Z.of_nat (length invs)) [] [] [])) as (H1 & H2 & H3 & H4).
  cbn [toCheck unknownInvs awaiting getdata app] in *.
  destruct (maybe_send_fields (handleInv_loop st 0 invs
              (mkInvCheck (Z.of_nat (length invs)) [] [] []))) as (M1 & M2 & M3).
  rewrite M1, M2, M3, (maybe_send_getdata _ H4), H3.
  split; [lia|]. split; [apply block_indices_NoDup|reflexivity].
Qed.

Lemma length_filter_ne (l : list nat) i :
  NoDup l -> i ∈ l -> S (length (filter (fun j => j <> i) l)) = length l.
Proof.
  induction l as [|x l IH]; intros Hnd Hi; [inversion Hi|].
  apply NoDup_cons in Hnd as [Hx Hnd].
  destruct (decide (x = i)) as [->|Hne].
  - rewrite filter_cons_False by (intros H; now apply H).
    cbn [length]. f_equal.
    clear IH Hi Hnd. induction l as [|y l IH]; [reflexivity|].
    apply not_elem_of_cons in Hx as [Hy Hx].
    rewrite filter_cons_True by (intros ->; now apply Hy).
    cbn [length]. now rewrite IH.
  - rewrite filter_cons_True by exact Hne. cbn [length]. f_equal. apply IH; [exact Hnd|].
    apply elem_of_cons in Hi as [->|Hi]; [contradiction|exact Hi].
Qed.

Lemma knowsBlock_reply_balanced invs o c r :
  balanced o c -> balanced o (knowsBlock_reply invs c r).
Proof.
  intros (H1 & H2 & H3). destruct r as [[i err] known]. unfold knowsBlock_reply.
  destruct (bool_decide (i ∈ awaiting c)) eqn:Hin; [|auto].
  apply bool_decide_eq_true in Hin.
  match goal with
  | |- context [maybe_send ?c1] =>
      destruct (maybe_send_fields c1) as (M1 & M2 & M3);
      rewrite M1, M2, M3, (maybe_send_getdata c1)
  end.
  - cbn [toCheck unknownInvs awaiting getdata].
    pose proof (length_filter_ne _ i H2 Hin) as Hlen.
    split; [lia|]. split; [now apply NoDup_filter|reflexivity].
  - cbn [getdata]. rewrite H3.
    assert (Hpos : (toCheck c =? 0)%Z = false).
    { apply Z.eqb_neq. destruct (awaiting c); [inversion Hin|cbn [length] in H1; lia]. }
    now rewrite Hpos.
Qed.

Lemma knowsBlock_replies_balanced invs o rs : forall c,
  balanced o c -> balanced o (knowsBlock_replies invs rs c).
Proof.
  induction rs as [|r rs IH]; intros c Hc; [exact Hc|].
  apply IH, knowsBlock_reply_balanced, Hc.
Qed.

Lemma getdata_when_done st invs rs :
  let c := knowsBlock_replies invs rs (handleInv st invs) in
  awaiting c = [] -> other_types invs = [] ->
  getdata c = match unknownInvs c with
              | [] => []
              | _ => [unknownInvs c]
              end.
Proof.
  cbn zeta.
  destruct (knowsBlock_replies_balanced invs _ rs _ (handleInv_balanced st invs))
    as (H1 & H2 & H3).
  set (c := knowsBlock_replies invs rs (handleInv st invs)) in *.
  intros Ha Ho. rewrite H3. rewrite Ha, Ho in H1. cbn in H1. rewrite H1.
  destruct (unknownInvs c); reflexivity.
Qed.

Lemma filter_all {A} (P : A -> Prop) `{forall a, Decision (P a)} (l : list A) :
  (forall a, a ∈ l -> P a) -> filter P l = l.
Proof.
  induction l as [|a l IH]; intros Hl; [reflexivity|].
  rewrite filter_cons_True by (apply Hl; left). f_equal. apply IH.
  intros b Hb. apply Hl. now right.
Qed.

Lemma filter_none {A} (P : A -> Prop) `{forall a, Decision (P a)} (l : list A) :
  (forall a, a ∈ l -> ~ P a) -> filter P l = [].
Proof.
  induction l as [|a l IH]; intros Hl; [reflexivity|].
  rewrite filter_cons_False by (apply Hl; left). apply IH.
  intros b Hb. apply Hl. now right.
Qed.

(** X23.  Whatever reports of [storage.knowsBlock] have come in after
    [handleInv], in whatever order: at most one getdata has been sent;
    none while a report is still awaited; none at all when the message
    holds an inv that is neither a transaction nor a block (the counter
    never reaches zero); and when all reports are in and every inv is a
    transaction or a block, exactly one getdata with all the unknown invs
    has been sent if there are any, none otherwise. *)
Theorem handleInv_sends_once (st : Store) (invs : list InvItem)
        (rs : list (nat * bool * bool)) :
  let c := knowsBlock_replies invs rs (handleInv st invs) in
  (length (getdata c) <= 1)%nat
  /\ (awaiting c <> [] -> getdata c = [])
  /\ (other_types invs <> [] -> getdata c = [])
  /\ (awaiting c = [] -> other_types invs = [] ->
      getdata c = match unknownInvs c with
                  | [] => []
                  | _ => [unknownInvs c]
                  end).
Proof.
  cbn zeta.
  destruct (knowsBlock_replies_balanced invs _ rs _ (handleInv_balanced st invs))
    as (H1 & H2 & H3).
  set (c := knowsBlock_replies invs rs (handleInv st invs)) in *.
  rewrite H3. split; [destruct (_ && _); cbn; lia|]. split; [|split].
  - intros Ha. replace (toCheck c =? 0)%Z with false; [reflexivity|].
    symmetry. apply Z.eqb_neq. destruct (awaiting c); [congruence|cbn [length] in H1; lia].
  - intros Ho. replace (toCheck c =? 0)%Z with false; [reflexivity|].
    symmetry. apply Z.eqb_neq.
    destruct (other_types invs); [congruence|cbn [length] in H1; lia].
  - intros Ha Ho. rewrite <- H3. now apply getdata_when_done.
Qed.

Lemma knowsBlock_replies_fields invs rs : forall c,
  NoDup ((fun r => r.1.1) <$> rs) ->
  (forall r, r ∈ rs -> r.1.1 ∈ awaiting c) ->
  unknownInvs (knowsBlock_replies invs rs c)
  = unknownInvs c ++ omap (reported_unknown invs) rs
  /\ awaiting (knowsBlock_replies invs rs c)
     = filter (fun j => j ∉ ((fun r => r.1.1) <$> rs)) (awaiting c).
Proof.
  induction rs as [|r rs IH]; intros c Hnd Hin.
  - cbn. rewrite app_nil_r. split; [reflexivity|].
    symmetry. apply filter_all. intros j _ Hj. inversion Hj.
  - cbn [fmap list_fmap] in Hnd. apply NoDup_cons in Hnd as [Hr Hnd].
    destruct r as [[i err] known]. cbn [fst] in Hr.
    assert (Hi : i ∈ awaiting c) by (apply (Hin (i, err, known)); left).
    change (knowsBlock_replies invs ((i, err, known) :: rs) c)
      with (knowsBlock_replies invs rs (knowsBlock_reply invs c (i, err, known))).
    set (c1 := knowsBlock_reply invs c (i, err, known)).
    assert (Hc1 : unknownInvs c1
                  = unknownInvs c ++ option_list (reported_unknown invs (i, err, known))
                  /\ awaiting c1 = filter (fun j => j <> i) (awaiting c)).
    { unfold c1, knowsBlock_reply. rewrite (bool_decide_eq_true_2 _ Hi).
      match goal with
      | |- context [maybe_send ?c2] =>
          destruct (maybe_send_fields c2) as (_ & M2 & M3); rewrite M2, M3
      end.
      cbn [unknownInvs awaiting reported_unknown].
      split; [|reflexivity].
      destruct err; cbn [orb]; [now rewrite app_nil_r|].
      destruct known; cbn [negb]; [now rewrite app_nil_r|].
      destruct (invs !! i); cbn; [reflexivity|now rewrite app_nil_r]. }
    destruct Hc1 as [U1 A1].
    destruct (IH c1 Hnd) as [U A].
    { intros r Hrin. rewrite A1. apply list_elem_of_filter. split.
      - intros E. apply Hr. rewrite <- E. apply list_elem_of_fmap. eauto.
      - apply Hin. now right. }
    rewrite U, A, U1, A1. split.
    + cbn [omap list_omap]. rewrite <- app_assoc. f_equal.
      now destruct (reported_unknown invs (i, err, known)).
    + rewrite list_filter_filter. apply list_filter_iff. intros j.
      cbn [fmap list_fmap fst]. rewrite not_elem_of_cons. tauto.
Qed.

(** X24.  When every inv is a transaction or a block and each block inv
    has been reported on once, in any order, one getdata has been sent
    with the transactions unknown to the store, in message order,
    followed by the blocks reported unknown without error, in the order
    of the reports; or none, when nothing is unknown. *)
Theorem handleInv_complete (st : Store) (invs : list InvItem)
        (rs : list (nat * bool * bool)) :
  other_types invs = [] ->
  (fun r => r.1.1) <$> rs ≡ₚ block_indices 0 invs ->
  getdata (knowsBlock_replies invs rs (handleInv st invs))
  = match unknown_txs st invs ++ omap (reported_unknown invs) rs with
    | [] => []
    | u => [u]
    end.
Proof.
  intros Ho Hperm.
  destruct (handleInv_loop_fields st invs 0
              (mkInvCheck (Z.of_nat (length invs)) [] [] [])) as (_ & L2 & L3 & _).
  cbn [unknownInvs awaiting app] in L2, L3.
  destruct (maybe_send_fields (handleInv_loop st 0 invs
              (mkInvCheck (Z.of_nat (length invs)) [] [] []))) as (_ & M2 & M3).
  fold (handleInv st invs) in M2, M3.
  destruct (knowsBlock_replies_fields invs rs (handleInv st invs)) as [U A].
  { rewrite Hperm. apply block_indices_NoDup. }
  { intros r Hr. rewrite M3, L3, <- Hperm. apply list_elem_of_fmap. eauto. }
  rewrite (getdata_when_done st invs rs);
    [rewrite U, M2, L2;
     generalize (unknown_txs st invs ++ omap (reported_unknown invs) rs);
     intros [|x l]; reflexivity| |exact Ho].
  rewrite A, M3, L3. apply filter_none.
  intros j Hj Hn. apply Hn. rewrite Hperm. exact Hj.
Qed.

Lemma handleInv_sends_once_witness :
  let invs := [mkInvItem 1 (hash Samples.txA); mkInvItem 7 "eA=="; mkInvItem 2 "YmxrMQ=="] in
  getdata (knowsBlock_replies invs [(2%nat, false, false)] (handleInv (new false) invs))
  = [].
Proof.
  cbn zeta.
  apply (handleInv_sends_once (new false)
           [mkInvItem 1 (hash Samples.txA); mkInvItem 7 "eA=="; mkInvItem 2 "YmxrMQ=="]
           [(2%nat, false, false)]).
  discriminate.
Defined.

Lemma handleInv_complete_witness :
  let st := run [OpAdd 1 Samples.txB (UserFn 0)] (new false) in
  let invs := [mkInvItem 1 (hash Samples.txA); mkInvItem 2 "YmxrMQ==";
               mkInvItem 1 (hash Samples.txB); mkInvItem 2 "YmxrMg=="] in
  getdata (knowsBlock_replies invs [(3%nat, false, false); (1%nat, false, true)]
                              (handleInv st invs))
  = [[mkInvItem 1 (hash Samples.txA); mkInvItem 2 "YmxrMg=="]].
Proof.
  cbn zeta.
  rewrite handleInv_complete.
  - vm_compute. reflexivity.
  - reflexivity.
  - cbn. apply perm_swap.
Defined.

End DispatchFacts.
